(** * panoramisk.actions: Action and Command

    A shallow embedding of [panoramisk/actions.py] and the properties of
    its request/response correlation logic.

    Python objects are mutable and their methods may raise.  The
    embedding therefore passes the object state explicitly and returns
    the outcome of a call in the [result] type below; a method that
    mutates the object before raising returns the mutated state together
    with the exception.  [multi] and [completed] are properties of a
    class that inherits [__getattr__]: each has its getter, and the read
    of the attribute, which turns an [AttributeError] of the getter into
    a lookup in the fields. *)

From Stdlib Require Import List String Ascii Bool Arith Lia.
From Stdlib Require Import Sorting.Sorted Sorting.Permutation.
From Stdlib Require Import DecimalString.
Import ListNotations.
Open Scope string_scope.

(** ** Python values and exceptions *)

(** The values that occur in a field mapping or as a message attribute:
    [None], a [str], or a [list]/[tuple] of strings.  Strings are
    sequences of 8-bit characters; comparison is by code point, as in
    Python. *)
Inductive pyval : Type :=
| PNone
| PStr (s : string)
| PList (l : list string).

Inductive exn : Type :=
| IndexError
| AttributeError
| KeyError.

Inductive result (A : Type) : Type :=
| Ok (a : A)
| Raise (e : exn).
Arguments Ok {A} a.
Arguments Raise {A} e.

Definition bind {A B : Type} (m : result A) (f : A -> result B) : result B :=
  match m with
  | Ok a => f a
  | Raise e => Raise e
  end.

Notation "x <- m ;; k" := (bind m (fun x => k))
  (at level 61, m at next level, right associativity).

Definition pyval_eqb (a b : pyval) : bool :=
  match a, b with
  | PNone, PNone => true
  | PStr s, PStr t => String.eqb s t
  | PList l, PList m => if list_eq_dec string_dec l m then true else false
  | _, _ => false
  end.

(** [bool(v)] *)
Definition truthy (v : pyval) : bool :=
  match v with
  | PNone => false
  | PStr s => negb (String.eqb s "")
  | PList l => match l with [] => false | _ => true end
  end.

(** [x in (a, b, ...)] for a tuple of string literals. *)
Definition py_in (v : pyval) (lits : list string) : bool :=
  existsb (fun s => pyval_eqb v (PStr s)) lits.

(** ** String methods *)

Definition lower_ascii (c : ascii) : ascii :=
  let n := nat_of_ascii c in
  if ((65 <=? n) && (n <=? 90))%nat then ascii_of_nat (n + 32) else c.

(** [s.lower()] on the ASCII letters. *)
Fixpoint lower (s : string) : string :=
  match s with
  | EmptyString => EmptyString
  | String c t => String (lower_ascii c) (lower t)
  end.

(** [s.startswith(p)] *)
Definition startswith (s p : string) : bool := String.prefix p s.

(** [s.endswith(p)] *)
Definition endswith (s p : string) : bool :=
  (String.length p <=? String.length s)%nat &&
  String.eqb (substring (String.length s - String.length p) (String.length p) s) p.

(** [p in s] *)
Fixpoint contains (p s : string) : bool :=
  String.prefix p s ||
  match s with
  | EmptyString => false
  | String _ t => contains p t
  end.

(** [v.lower()]: only a [str] has the method. *)
Definition py_lower (v : pyval) : result string :=
  match v with
  | PStr s => Ok (lower s)
  | _ => Raise AttributeError
  end.

(** [v.endswith(p)]: only a [str] has the method. *)
Definition py_endswith (v : pyval) (p : string) : result bool :=
  match v with
  | PStr s => Ok (endswith s p)
  | _ => Raise AttributeError
  end.

(** ** utils.CaseInsensitiveDict *)

Module CaseInsensitiveDict.

(** Modelled from the spec: [utils.CaseInsensitiveDict], the Field
    Container, is not among the sources.  The spec describes it as a
    case-insensitive string-keyed mapping with list-valued entries,
    offering key lookup and assignment, a "contains key" test and
    iteration over (key, value) pairs.  The store is kept in insertion
    order, keyed by the lower-cased key, and remembers the key as the
    caller spelled it: the docstrings of [Action] print [ActionID], not
    [actionid]. *)
Definition t : Type := list (string * (string * pyval)).

(** Modelled from the spec: the mapping without entries. *)
Definition empty : t := [].

(** Modelled from the spec: the entry stored under a lower-cased key. *)
Fixpoint find (k : string) (d : t) : option (string * pyval) :=
  match d with
  | [] => None
  | (k', e) :: d' => if String.eqb k k' then Some e else find k d'
  end.

(** Modelled from the spec: [key in d], the case-insensitive
    "contains key" test. *)
Definition contains (d : t) (key : string) : bool :=
  match find (lower key) d with Some _ => true | None => false end.

(** Modelled from the spec: the store after an assignment under a
    lower-cased key; an entry that exists keeps its position, as in a
    Python [dict], and a new entry goes last. *)
Fixpoint replace (k : string) (e : string * pyval) (d : t) : t :=
  match d with
  | [] => [(k, e)]
  | (k', e') :: d' =>
      if String.eqb k k' then (k, e) :: d' else (k', e') :: replace k e d'
  end.

(** Modelled from the spec: [d[key] = value], case-insensitive
    assignment; the entry takes the new spelling and value. *)
Definition setitem (d : t) (key : string) (value : pyval) : t :=
  replace (lower key) (key, value) d.

(** Modelled from the spec: [d[key]], case-insensitive lookup.  As
    for every Python mapping, a key the mapping does not hold raises
    [KeyError]; [multi] itself tests ['EventList' in resp] before it
    reads [resp['EventList']]. *)
Definition getitem (d : t) (key : string) : result pyval :=
  match find (lower key) d with
  | Some (_, v) => Ok v
  | None => Raise KeyError
  end.

(** Modelled from the spec: [d.attr], the attribute-style read behind
    [self.actionid] and [self.commandid].  For a field that is not set
    it gives the empty string, which [Command.action_id] turns into
    [None] ("returns empty/absent if none is set"). *)
Definition getattr (d : t) (attr : string) : pyval :=
  match find (lower attr) d with
  | Some (_, v) => v
  | None => PStr ""
  end.

(** Modelled from the spec: [d.items()], iteration over the pairs
    (key as spelled, value), in insertion order. *)
Definition items (d : t) : list (string * pyval) := map snd d.

(** Modelled from the spec: [d.update(data)], one assignment per
    pair, in order. *)
Definition update (d : t) (data : list (string * pyval)) : t :=
  fold_left (fun acc kv => setitem acc (fst kv) (snd kv)) data d.

(** Modelled from the spec: [CaseInsensitiveDict(data)]. *)
Definition init (data : list (string * pyval)) : t := update empty data.

(** The store of a mapping built by assignments: every entry sits
    under the lower-cased form of its spelled key, and no key occurs
    twice. *)
Definition wf (d : t) : Prop :=
  NoDup (map fst d) /\ Forall (fun e => fst e = lower (fst (snd e))) d.

End CaseInsensitiveDict.

(** ** Reading a property *)

(** What reading a boolean property gives: the value its getter
    returned, or a field value handed out by [__getattr__]. *)
Inductive attr : Type :=
| Bool (b : bool)
| Field (v : pyval).

(** [bool(a)] *)
Definition attr_truthy (a : attr) : bool :=
  match a with
  | Bool b => b
  | Field v => truthy v
  end.

(** [self.name] for a property [name] of a class that inherits
    [__getattr__] from [CaseInsensitiveDict]: when the getter raises
    [AttributeError], Python calls [__getattr__], so the read gives the
    attribute-style lookup of [name] in the fields; any other exception
    of the getter goes through. *)
Definition property (d : CaseInsensitiveDict.t) (name : string)
    (getter : result bool) : result attr :=
  match getter with
  | Ok b => Ok (Bool b)
  | Raise AttributeError => Ok (Field (CaseInsensitiveDict.getattr d name))
  | Raise e => Raise e
  end.

(** ** utils.IdGenerator *)

Module IdGenerator.

(** Modelled from the spec: [utils.IdGenerator], the Correlation-ID
    Issuer, is not among the sources.  An id has the format
    category/session-token/epoch/sequence, and the sequence number
    increments once per issued id. *)
Record t : Type := mk {
  prefix : string;
  uid : string;
  epoch : nat;
  seq : nat
}.

(** Modelled from the spec: [IdGenerator(prefix)] with the session
    token it drew; the first id it issues ends in [/1/1], as in the
    docstrings of [Action] and [Command]. *)
Definition init (prefix uid : string) : t := mk prefix uid 1 1.

(** Modelled from the spec: a number of an id, in decimal. *)
Definition decimal (n : nat) : string := NilEmpty.string_of_uint (Nat.to_uint n).

(** Modelled from the spec: the id the issuer hands out next. *)
Definition current (g : t) : string :=
  prefix g ++ "/" ++ uid g ++ "/" ++ decimal (epoch g) ++ "/" ++ decimal (seq g).

(** Modelled from the spec: [g()] returns the id and advances the
    sequence number. *)
Definition call (g : t) : string * t :=
  (current g, mk (prefix g) (uid g) (epoch g) (S (seq g))).

(** Modelled from the spec: the states an issuer created as [g0] goes
    through, by issuing ids and by resets; a reset reinitializes the
    session token and the counters and keeps the category. *)
Inductive evolves (g0 : t) : t -> Prop :=
| evolves_created : evolves g0 g0
| evolves_call (g : t) : evolves g0 g -> evolves g0 (snd (call g))
| evolves_reset (uid : string) (epoch seq : nat) (g : t) :
    evolves g0 g -> evolves g0 (mk (prefix g) uid epoch seq).

End IdGenerator.

(** ** Message *)

(** Modelled from the spec: the [Message] class is not among the
    sources.  The spec treats a message as an opaque value that exposes
    an event name, a subevent name, a response status and a free-text
    message, and that answers "does this key exist" and "get this key".
    The attributes hold Python values: the code applies string methods
    to some of them, which only a [str] provides. *)
Record Message : Type := mkMessage {
  msg_fields : CaseInsensitiveDict.t;
  msg_event : pyval;
  msg_subevent : pyval;
  msg_response : pyval;
  msg_message : pyval
}.

(** [l[0]] *)
Definition index_first {A : Type} (l : list A) : result A :=
  match l with
  | x :: _ => Ok x
  | [] => Raise IndexError
  end.

(** [l[-1]] *)
Definition index_last {A : Type} (l : list A) : result A :=
  index_first (rev l).

(** ** Action *)

Module Action.

(** What [set_result] stored in the future.  [add_message] passes
    either the first response or the list object [self.responses]
    itself; the latter is kept as a reference, so that the result read
    later is whatever the list holds by then. *)
Inductive result_ref : Type :=
| RefMessage (m : Message)
| RefResponses.

(** An [Action] object: the field mapping it inherits from
    [CaseInsensitiveDict], the state of the [asyncio.Future] it also
    is ([None] while pending), and its own attributes.  [as_list] is
    [None] or the truth value of what the caller passed. *)
Record t : Type := mk {
  fields : CaseInsensitiveDict.t;
  as_list : option bool;
  future : option result_ref;
  responses : list Message;
  responses_index : nat
}.

(** The class attribute [action_id_generator = utils.IdGenerator('action')],
    for the session token the issuer drew. *)
Definition action_id_generator (uid : string) : IdGenerator.t :=
  IdGenerator.init "action" uid.

(** [Action(data, as_list=...)]: [data] lists the initial fields in
    the order [update] assigns them, [as_list] is the keyword popped
    from [kwargs], and the current state [g] of [action_id_generator]
    is passed in and out. *)
Definition init (g : IdGenerator.t) (data : list (string * pyval))
    (as_list : option bool) : t * IdGenerator.t :=
  let d := CaseInsensitiveDict.init data in
  let '(d, g) :=
    if negb (CaseInsensitiveDict.contains d "actionid") then
      let '(i, g') := IdGenerator.call g in
      (CaseInsensitiveDict.setitem d "ActionID" (PStr i), g')
    else (d, g) in
  (mk d as_list None [] 0, g).

(** [self.done()] *)
Definition done (self : t) : bool :=
  match future self with Some _ => true | None => false end.

(** The value the future holds, as a consumer reads it. *)
Inductive ResultState : Type :=
| Pending
| ResolvedOne (m : Message)
| ResolvedMany (l : list Message).

Definition resultState (self : t) : ResultState :=
  match future self with
  | None => Pending
  | Some (RefMessage m) => ResolvedOne m
  | Some RefResponses => ResolvedMany (responses self)
  end.

(** One pass through the loop of [__anext__]: it returns a response,
    raises [StopAsyncIteration], or sleeps and starts over. *)
Inductive anext_outcome : Type :=
| Return (res : Message)
| StopAsyncIteration
| Sleep.

(** [nth_error] finds an element exactly when
    [self.responses_index < len(self.responses)]. *)
Definition anext (self : t) : t * anext_outcome :=
  match nth_error (responses self) (responses_index self) with
  | Some res =>
      (mk (fields self) (as_list self) (future self) (responses self)
          (responses_index self + 1),
       Return res)
  | None =>
      if done self then (self, StopAsyncIteration) else (self, Sleep)
  end.

(** The [id] property; [action_id] is the same property. *)
Definition id (self : t) : pyval :=
  CaseInsensitiveDict.getattr (fields self) "actionid".

Definition action_id (self : t) : pyval := id self.

(** Order of the (key, value) tuples under [sorted]: the spelled keys
    by code point.  The values never decide: two entries of one
    mapping do not share a key. *)
Definition item_leb (a b : string * pyval) : bool :=
  String.leb (fst a) (fst b).

Fixpoint insert (x : string * pyval) (l : list (string * pyval)) :
    list (string * pyval) :=
  match l with
  | [] => [x]
  | y :: l' => if item_leb x y then x :: y :: l' else y :: insert x l'
  end.

(** [sorted(items)], a stable sort. *)
Definition sorted (l : list (string * pyval)) : list (string * pyval) :=
  fold_right insert [] l.

(** The lines one field contributes. *)
Definition lines (kv : string * pyval) : list string :=
  match snd kv with
  | PList v => map (fun i => fst kv ++ ": " ++ i) v
  | PStr v => [fst kv ++ ": " ++ v]
  | PNone => [fst kv ++ ": None"]
  end.

Section Serialization.

(** [utils.EOL], the line terminator of the protocol, is defined
    outside the sources. *)
Variable EOL : string.

(** [__str__] *)
Definition str (self : t) : string :=
  let action :=
    flat_map lines (sorted (CaseInsensitiveDict.items (fields self))) in
  String.concat EOL (action ++ [EOL]).

End Serialization.

(** The getter of the [multi] property: what the decorated function
    returns or raises. *)
Definition multi (self : t) : result bool :=
  resp <- index_first (responses self) ;;
  msg <- py_lower (msg_message resp) ;;
  match as_list self with
  | Some b => Ok b
  | None =>
    if pyval_eqb (msg_subevent resp) (PStr "Start") then Ok true
    else
      event_list <-
        (if CaseInsensitiveDict.contains (msg_fields resp) "EventList"
         then v <- CaseInsensitiveDict.getitem (msg_fields resp) "EventList" ;;
              Ok (pyval_eqb v (PStr "start"))
         else Ok false) ;;
      if event_list then Ok true
      else if contains "will follow" msg then Ok true
      else if startswith msg "added" && endswith msg "to queue" then Ok true
      else
        queued <-
          (if endswith msg "successfully queued"
           then v <- CaseInsensitiveDict.getitem (fields self) "async" ;;
                Ok (negb (pyval_eqb v (PStr "false")))
           else Ok false) ;;
        if queued then Ok true else Ok false
  end.

(** [self.multi]: the property as it is read. *)
Definition read_multi (self : t) : result attr :=
  property (fields self) "multi" (multi self).

(** The getter of the [completed] property; its last test reads
    [self.multi]. *)
Definition completed (self : t) : result bool :=
  resp <- index_last (responses self) ;;
  complete <- py_endswith (msg_event resp) "Complete" ;;
  if complete then Ok true
  else if py_in (msg_subevent resp) ["End"; "Exec"] then Ok true
  else if py_in (msg_response resp) ["Success"; "Error"; "Fail"; "Failure"]
  then Ok true
  else
    m <- read_multi self ;;
    if negb (attr_truthy m) then Ok true else Ok false.

(** [self.completed]: the property as it is read. *)
Definition read_completed (self : t) : result attr :=
  property (fields self) "completed" (completed self).

(** [self.responses.append(message)] *)
Definition append (self : t) (message : Message) : t :=
  mk (fields self) (as_list self) (future self)
     (responses self ++ [message]) (responses_index self).

(** [self.set_result(...)] on a pending future *)
Definition set_result (self : t) (r : result_ref) : t :=
  mk (fields self) (as_list self) (Some r)
     (responses self) (responses_index self).

(** [add_message] returns the object as the call leaves it and what
    the call returned ([None] when it falls off the end) or raised.  It
    reads [self.multi] and [self.completed] and tests their truth
    values. *)
Definition add_message (self : t) (message : Message) :
    t * result (option bool) :=
  let self := append self message in
  match read_multi self with
  | Raise e => (self, Raise e)
  | Ok multi =>
    match read_completed self with
    | Raise e => (self, Raise e)
    | Ok is_completed =>
      if attr_truthy is_completed && negb (done self) then
        if attr_truthy multi && (1 <? List.length (responses self))%nat then
          (set_result self RefResponses, Ok (Some true))
        else if negb (attr_truthy multi) then
          match index_first (responses self) with
          | Ok first => (set_result self (RefMessage first), Ok (Some true))
          | Raise e => (self, Raise e)
          end
        else (self, Ok (Some false))
      else (self, Ok None)
    end
  end.

End Action.

(** ** Command *)

Module Command.

(** A [Command] is an [Action] object with two overridden
    properties. *)
Definition t : Type := Action.t.

Definition set_fields (self : t) (d : CaseInsensitiveDict.t) : t :=
  Action.mk d (Action.as_list self) (Action.future self)
    (Action.responses self) (Action.responses_index self).

(** The class attribute [command_id_generator = utils.IdGenerator('command')]. *)
Definition command_id_generator (uid : string) : IdGenerator.t :=
  IdGenerator.init "command" uid.

(** [Command(data, as_list=...)] with the states [ga] and [gc] of the
    two class-level generators passed in and out. *)
Definition init (ga gc : IdGenerator.t) (data : list (string * pyval))
    (as_list : option bool) : t * IdGenerator.t * IdGenerator.t :=
  let '(self, ga) := Action.init ga data as_list in
  let self :=
    if negb (CaseInsensitiveDict.contains (Action.fields self) "action")
    then set_fields self
           (CaseInsensitiveDict.setitem (Action.fields self) "Action" (PStr "Command"))
    else self in
  if negb (CaseInsensitiveDict.contains (Action.fields self) "commandid") then
    let '(i, gc') := IdGenerator.call gc in
    (set_fields self
       (CaseInsensitiveDict.setitem (Action.fields self) "CommandID" (PStr i)),
     ga, gc')
  else (self, ga, gc).

(** The [id] property *)
Definition id (self : t) : pyval :=
  CaseInsensitiveDict.getattr (Action.fields self) "commandid".

(** The [action_id] property: [self.actionid or None] *)
Definition action_id (self : t) : pyval :=
  let v := CaseInsensitiveDict.getattr (Action.fields self) "actionid" in
  if truthy v then v else PNone.

End Command.

(** ** Vocabulary of the properties *)

(** The issuers of the docstrings, after [IdGenerator.reset('myuuid')]. *)
Definition myuuid (category : string) : IdGenerator.t :=
  IdGenerator.init category "myuuid".

(** Carriage return, line feed. *)
Definition CRLF : string :=
  String (ascii_of_nat 13) (String (ascii_of_nat 10) EmptyString).


(** The signals of [multi] that only look at the first response [r0],
    whose message text is [msg]: the subevent, the [EventList] field and
    the two message patterns. *)
Definition response_signal (r0 : Message) (msg : string) : bool :=
  pyval_eqb (msg_subevent r0) (PStr "Start")
  || (CaseInsensitiveDict.contains (msg_fields r0) "EventList"
      && pyval_eqb (CaseInsensitiveDict.getattr (msg_fields r0) "EventList")
                   (PStr "start"))
  || contains "will follow" (lower msg)
  || (startswith (lower msg) "added" && endswith (lower msg) "to queue").

(** The operations a request undergoes once it is built: the delivery
    side feeds it a message, or the consumer of the stream makes one
    pass through [__anext__]. *)
Inductive op : Type :=
| Feed (message : Message)
| Next.

(** One operation: the object afterwards and what the stream handed
    out. *)
Definition step (self : Action.t) (o : op) : Action.t * list Message :=
  match o with
  | Feed message => (fst (Action.add_message self message), [])
  | Next =>
      let '(self', out) := Action.anext self in
      (self', match out with Action.Return res => [res] | _ => [] end)
  end.

Fixpoint run (self : Action.t) (ops : list op) : Action.t * list Message :=
  match ops with
  | [] => (self, [])
  | o :: ops' =>
      let '(self1, out1) := step self o in
      let '(self2, out2) := run self1 ops' in
      (self2, (out1 ++ out2)%list)
  end.

(** The messages fed by a sequence of operations, in order. *)
Definition fed (ops : list op) : list Message :=
  flat_map (fun o => match o with Feed message => [message] | Next => [] end) ops.

(** The order of [sorted] as a relation. *)
Definition item_le (a b : string * pyval) : Prop := Action.item_leb a b = true.

(** Case-insensitive order of two fields, the order the specification
    names for the wire text. *)
Definition item_ci_leb (a b : string * pyval) : bool :=
  String.leb (lower (fst a)) (lower (fst b)).

Definition item_ci_le (a b : string * pyval) : Prop := item_ci_leb a b = true.

(** A reply as the delivery side parses it: a response status and a
    message text, no event and no subevent. *)
Definition reply (response message : string) : Message :=
  mkMessage
    (CaseInsensitiveDict.init
       [("Response", PStr response); ("Message", PStr message)])
    (PStr "") (PStr "") (PStr response) (PStr message).

(** A reply whose [Message] is not a text but a list of lines. *)
Definition reply_lines (response : string) (message : list string) : Message :=
  mkMessage
    (CaseInsensitiveDict.init
       [("Response", PStr response); ("Message", PList message)])
    (PStr "") (PStr "") (PStr response) (PList message).

(** An event of the given name and subevent. *)
Definition event (name subevent : string) : Message :=
  mkMessage
    (CaseInsensitiveDict.init
       [("Event", PStr name); ("SubEvent", PStr subevent)])
    (PStr name) (PStr subevent) (PStr "") (PStr "").

(** A request with a caller-chosen id. *)
Definition request (data : list (string * pyval)) (as_list : option bool) : Action.t :=
  fst (Action.init (myuuid "action") (("ActionID", PStr "1") :: data) as_list).

(** An [Originate] request that does not set [Async]. *)
Definition originate : Action.t :=
  request [("Action", PStr "Originate"); ("Channel", PStr "SIP/100");
           ("Exten", PStr "200"); ("Context", PStr "default");
           ("Priority", PStr "1")] None.

(** The markers [completed] looks for on the last response, whose
    event name is [name]: the end of the event name, the subevent and
    the response status. *)
Definition terminal (rN : Message) (name : string) : bool :=
  endswith name "Complete"
  || py_in (msg_subevent rN) ["End"; "Exec"]
  || py_in (msg_response rN) ["Success"; "Error"; "Fail"; "Failure"].

(** Two objects that differ at most in the cursor of the stream. *)
Definition same_but_cursor (a b : Action.t) : Prop :=
  Action.fields a = Action.fields b
  /\ Action.as_list a = Action.as_list b
  /\ Action.future a = Action.future b
  /\ Action.responses a = Action.responses b.

(** The feeds of a sequence of operations, without the stream passes. *)
Definition feeds (ops : list op) : list op := map Feed (fed ops).

(** What a request built by [__init__] and fed since then keeps true
    of its future: a single result is the first response and [multi]
    reads as false; a list result stands for at least two responses and
    [multi] reads as true. *)
Definition resolved_as_classified (self : Action.t) : Prop :=
  match Action.future self with
  | None => True
  | Some (Action.RefMessage first) =>
      index_first (Action.responses self) = Ok first
      /\ exists m, Action.read_multi self = Ok m /\ attr_truthy m = false
  | Some Action.RefResponses =>
      2 <= List.length (Action.responses self)
      /\ exists m, Action.read_multi self = Ok m /\ attr_truthy m = true
  end.

(** ** The docstring examples *)

Example doctest_action_status :
  Action.str CRLF (fst (Action.init (myuuid "action") [("Action", PStr "Status")] None))
  = "Action: Status" ++ CRLF ++ "ActionID: action/myuuid/1/1" ++ CRLF ++ CRLF.
Proof. reflexivity. Qed.

Example doctest_action_sipnotify :
  let g := snd (Action.init (myuuid "action") [("Action", PStr "Status")] None) in
  Action.str CRLF
    (fst (Action.init g [("Action", PStr "SIPnotify"); ("Variable", PList ["1"; "2"])] None))
  = "Action: SIPnotify" ++ CRLF ++ "ActionID: action/myuuid/1/2" ++ CRLF
    ++ "Variable: 1" ++ CRLF ++ "Variable: 2" ++ CRLF ++ CRLF.
Proof. reflexivity. Qed.

Example doctest_command :
  Action.str CRLF
    (fst (fst (Command.init (myuuid "action") (myuuid "command")
                 [("Command", PStr "Do something")] None)))
  = "Action: Command" ++ CRLF ++ "ActionID: action/myuuid/1/1" ++ CRLF
    ++ "Command: Do something" ++ CRLF ++ "CommandID: command/myuuid/1/1" ++ CRLF ++ CRLF.
Proof. reflexivity. Qed.

(** * Properties *)

(** ** Lists and results *)

Lemma index_last_app {A : Type} (l : list A) (x : A) :
  index_last (l ++ [x]) = Ok x.
Proof.
  unfold index_last. rewrite rev_app_distr. reflexivity.
Qed.

Lemma index_first_Ok {A : Type} (l : list A) (x : A) :
  index_first l = Ok x <-> exists rest, l = x :: rest.
Proof.
  destruct l as [|y rest]; simpl; split.
  - discriminate.
  - intros [? H]; discriminate.
  - intros H; injection H as ->. now exists rest.
  - intros [? H]; injection H as -> _. reflexivity.
Qed.

Lemma index_last_nil {A : Type} (l : list A) (e : exn) :
  index_last l = Raise e -> l = [] /\ e = IndexError.
Proof.
  unfold index_last. destruct l as [|x l] using rev_ind.
  - simpl. intros H; injection H as <-. auto.
  - rewrite rev_app_distr. discriminate.
Qed.

Lemma bind_Ok {A B : Type} (m : result A) (f : A -> result B) (b : B) :
  bind m f = Ok b <-> exists a, m = Ok a /\ f a = Ok b.
Proof.
  destruct m as [a|e]; simpl; split.
  - intros H; now exists a.
  - intros [a' [H1 H2]]; injection H1 as ->; exact H2.
  - discriminate.
  - intros [a' [H1 _]]; discriminate.
Qed.

(** ** Reading the properties *)

Lemma read_multi_Ok (self : Action.t) (b : bool) :
  Action.multi self = Ok b -> Action.read_multi self = Ok (Bool b).
Proof. unfold Action.read_multi. now intros ->. Qed.

Lemma read_completed_Ok (self : Action.t) (b : bool) :
  Action.completed self = Ok b -> Action.read_completed self = Ok (Bool b).
Proof. unfold Action.read_completed. now intros ->. Qed.

Lemma read_multi_KeyError (self : Action.t) :
  Action.multi self = Raise KeyError -> Action.read_multi self = Raise KeyError.
Proof. unfold Action.read_multi. now intros ->. Qed.

(** A read gives a truth value of the getter or a field: it raises
    only what the getter raises, and never [AttributeError]. *)
Lemma property_Raise (d : CaseInsensitiveDict.t) (name : string)
    (getter : result bool) (e : exn) :
  property d name getter = Raise e -> getter = Raise e /\ e <> AttributeError.
Proof.
  destruct getter as [b|[| |]]; cbn; try discriminate;
    intros H; injection H as <-; split; congruence.
Qed.

Lemma property_Bool (d : CaseInsensitiveDict.t) (name : string)
    (getter : result bool) (b : bool) :
  property d name getter = Ok (Bool b) <-> getter = Ok b.
Proof.
  destruct getter as [b'|[| |]]; cbn; split; try discriminate.
  - intros H; now injection H as ->.
  - intros H; now injection H as ->.
Qed.

Lemma multi_ext (a b : Action.t) :
  Action.fields a = Action.fields b ->
  Action.as_list a = Action.as_list b ->
  index_first (Action.responses a) = index_first (Action.responses b) ->
  Action.multi a = Action.multi b.
Proof.
  intros Hf Ho Hr. unfold Action.multi. now rewrite Hf, Ho, Hr.
Qed.

Lemma index_first_app {A : Type} (l more : list A) :
  l <> [] -> index_first (l ++ more) = index_first l.
Proof. destruct l; [congruence|reflexivity]. Qed.

Lemma read_multi_ext (a b : Action.t) :
  Action.fields a = Action.fields b ->
  Action.as_list a = Action.as_list b ->
  index_first (Action.responses a) = index_first (Action.responses b) ->
  Action.read_multi a = Action.read_multi b.
Proof.
  intros Hf Ho Hr. unfold Action.read_multi.
  now rewrite (multi_ext a b Hf Ho Hr), Hf.
Qed.

Lemma read_multi_append (self : Action.t) (message : Message) :
  Action.responses self <> [] ->
  Action.read_multi (Action.append self message) = Action.read_multi self.
Proof.
  intros Hne. apply read_multi_ext; try reflexivity.
  cbn [Action.append Action.responses]. now apply index_first_app.
Qed.

(** Reading [completed] raises only what reading [multi] raises, once a
    response is buffered. *)
Lemma read_completed_Ok_of_multi (self : Action.t) (m : attr) :
  Action.responses self <> [] ->
  Action.read_multi self = Ok m ->
  exists c, Action.read_completed self = Ok c.
Proof.
  intros Hne Hm. unfold Action.read_completed, Action.completed.
  destruct (Action.responses self) as [|x l] using rev_ind; [congruence|].
  rewrite index_last_app. cbn [bind].
  destruct (msg_event x) as [|name|names]; cbn [py_endswith bind property];
    eauto.
  destruct (endswith name "Complete"); cbn [property]; eauto.
  destruct (py_in (msg_subevent x) _); cbn [property]; eauto.
  destruct (py_in (msg_response x) _); cbn [property]; eauto.
  rewrite Hm. cbn [bind].
  destruct (negb (attr_truthy m)); cbn [property]; eauto.
Qed.

(** ** The [multi] classification *)

Section Multi.

Variable self : Action.t.
Variables (r0 : Message) (rest : list Message) (msg : string).
Hypothesis Hresponses : Action.responses self = r0 :: rest.
Hypothesis Hmessage : msg_message r0 = PStr msg.

Lemma event_list_lookup :
  (if CaseInsensitiveDict.contains (msg_fields r0) "EventList"
   then v <- CaseInsensitiveDict.getitem (msg_fields r0) "EventList" ;;
        Ok (pyval_eqb v (PStr "start"))
   else Ok false)
  = Ok (CaseInsensitiveDict.contains (msg_fields r0) "EventList"
        && pyval_eqb (CaseInsensitiveDict.getattr (msg_fields r0) "EventList")
                     (PStr "start")).
Proof.
  unfold CaseInsensitiveDict.contains, CaseInsensitiveDict.getitem,
    CaseInsensitiveDict.getattr.
  destruct (CaseInsensitiveDict.find _ _) as [[k v]|]; reflexivity.
Qed.

(** [multi] on a request whose first response carries a text
    message, branch by branch. *)
Lemma multi_unfold :
  Action.multi self =
  match Action.as_list self with
  | Some b => Ok b
  | None =>
    if response_signal r0 msg then Ok true
    else if endswith (lower msg) "successfully queued" then
      v <- CaseInsensitiveDict.getitem (Action.fields self) "async" ;;
      Ok (negb (pyval_eqb v (PStr "false")))
    else Ok false
  end.
Proof.
  unfold Action.multi, response_signal.
  rewrite Hresponses; simpl. rewrite Hmessage; simpl.
  destruct (Action.as_list self) as [b|]; [reflexivity|].
  destruct (pyval_eqb (msg_subevent r0) (PStr "Start")); [reflexivity|].
  rewrite event_list_lookup; simpl.
  destruct (CaseInsensitiveDict.contains (msg_fields r0) "EventList"
            && pyval_eqb _ _); [reflexivity|]; simpl.
  destruct (contains "will follow" (lower msg)); [reflexivity|]; simpl.
  destruct (startswith (lower msg) "added" && endswith (lower msg) "to queue");
    [reflexivity|].
  destruct (endswith (lower msg) "successfully queued"); simpl; [|reflexivity].
  destruct (CaseInsensitiveDict.getitem (Action.fields self) "async") as [v|e];
    simpl; [|reflexivity].
  destruct (pyval_eqb v (PStr "false")); reflexivity.
Qed.

(** An override decides alone. *)
Lemma multi_override (b : bool) :
  Action.as_list self = Some b -> Action.multi self = Ok b.
Proof. intros H. rewrite multi_unfold, H. reflexivity. Qed.

(** Without an override, [multi] is true exactly when one of the
    signals fires; the last one needs the request to hold an [async]
    field that differs from ["false"]. *)
Lemma multi_true_iff :
  Action.multi self = Ok true <->
  Action.as_list self = Some true \/
  (Action.as_list self = None /\
   (response_signal r0 msg = true \/
    (endswith (lower msg) "successfully queued" = true /\
     exists v, CaseInsensitiveDict.getitem (Action.fields self) "async" = Ok v
               /\ pyval_eqb v (PStr "false") = false))).
Proof.
  rewrite multi_unfold.
  destruct (Action.as_list self) as [b|].
  - split.
    + intros H; injection H as ->; now left.
    + intros [H|[H _]]; [injection H as ->; reflexivity | discriminate].
  - destruct (response_signal r0 msg).
    + split; [intros _; right; auto | reflexivity].
    + destruct (endswith (lower msg) "successfully queued").
      * destruct (CaseInsensitiveDict.getitem _ _) as [v|e]; simpl.
        -- destruct (pyval_eqb v (PStr "false")) eqn:E; simpl; split.
           ++ discriminate.
           ++ intros [H|[_ [H|[_ [v' [H1 H2]]]]]]; try discriminate.
              injection H1 as <-. congruence.
           ++ intros _. right. split; [reflexivity|]. right.
              split; [reflexivity|]. now exists v.
           ++ reflexivity.
        -- split; [discriminate|].
           intros [H|[_ [H|[_ [v' [H1 _]]]]]]; discriminate.
      * split; [discriminate|].
        intros [H|[_ [H|[H _]]]]; discriminate.
Qed.

(** No override and no signal: false, provided the last signal is
    ruled out by the message text or by [async] being ["false"]. *)
Lemma multi_no_signal :
  Action.as_list self = None ->
  response_signal r0 msg = false ->
  endswith (lower msg) "successfully queued" = false
  \/ CaseInsensitiveDict.getitem (Action.fields self) "async" = Ok (PStr "false") ->
  Action.multi self = Ok false.
Proof.
  intros Ho Hs Hq. rewrite multi_unfold, Ho, Hs.
  destruct Hq as [-> | ->]; [reflexivity|].
  destruct (endswith (lower msg) "successfully queued"); reflexivity.
Qed.

(** The last signal is consulted without checking that the request
    has an [async] field. *)
Lemma multi_async_missing :
  Action.as_list self = None ->
  response_signal r0 msg = false ->
  endswith (lower msg) "successfully queued" = true ->
  CaseInsensitiveDict.contains (Action.fields self) "async" = false ->
  Action.multi self = Raise KeyError.
Proof.
  intros Ho Hs Hq Ha. rewrite multi_unfold, Ho, Hs, Hq.
  unfold CaseInsensitiveDict.contains in Ha.
  unfold CaseInsensitiveDict.getitem.
  destruct (CaseInsensitiveDict.find _ _) as [[k v]|]; [discriminate|reflexivity].
Qed.

End Multi.

(** ** The [completed] classification *)

Lemma completed_unfold (self : Action.t) (rN : Message) (event : string) :
  index_last (Action.responses self) = Ok rN ->
  msg_event rN = PStr event ->
  Action.completed self =
  if endswith event "Complete"
     || py_in (msg_subevent rN) ["End"; "Exec"]
     || py_in (msg_response rN) ["Success"; "Error"; "Fail"; "Failure"]
  then Ok true
  else m <- Action.read_multi self ;; Ok (negb (attr_truthy m)).
Proof.
  intros Hlast Hevent. unfold Action.completed.
  rewrite Hlast; cbn [bind]. rewrite Hevent; cbn [bind py_endswith].
  destruct (endswith event "Complete"); [reflexivity|]; cbn [orb].
  destruct (py_in (msg_subevent rN) ["End"; "Exec"]); [reflexivity|]; cbn [orb].
  destruct (py_in (msg_response rN) _); [reflexivity|].
  destruct (Action.read_multi self) as [m|e]; [|reflexivity].
  cbn [bind]. now destruct (negb (attr_truthy m)).
Qed.

Lemma completed_defined (self : Action.t) (b : bool) :
  Action.completed self = Ok b -> Action.responses self <> [].
Proof.
  unfold Action.completed, index_last. intros H Hnil.
  rewrite Hnil in H. discriminate.
Qed.

Lemma multi_defined (self : Action.t) (b : bool) :
  Action.multi self = Ok b ->
  exists r0 rest msg,
    Action.responses self = r0 :: rest /\ msg_message r0 = PStr msg.
Proof.
  unfold Action.multi. intros H.
  apply bind_Ok in H as [r0 [H0 H]].
  apply index_first_Ok in H0 as [rest H0].
  apply bind_Ok in H as [msg [Hm _]].
  exists r0, rest.
  destruct (msg_message r0) as [|s|l]; try discriminate.
  now exists s.
Qed.

(** ** [add_message] *)

Lemma add_message_state (self : Action.t) (message : Message) :
  let self' := fst (Action.add_message self message) in
  Action.fields self' = Action.fields self
  /\ Action.as_list self' = Action.as_list self
  /\ Action.responses self' = (Action.responses self ++ [message])%list
  /\ Action.responses_index self' = Action.responses_index self
  /\ (forall r, Action.future self = Some r -> Action.future self' = Some r).
Proof.
  cbv zeta. unfold Action.add_message.
  set (fed := Action.append self message).
  assert (Hfed : forall out : result (option bool),
            let self' := fst (fed, out) in
            Action.fields self' = Action.fields self
            /\ Action.as_list self' = Action.as_list self
            /\ Action.responses self' = (Action.responses self ++ [message])%list
            /\ Action.responses_index self' = Action.responses_index self
            /\ (forall r, Action.future self = Some r -> Action.future self' = Some r))
    by (intros out; cbn; auto 6).
  assert (Hset : Action.done fed = false ->
            forall (ref : Action.result_ref) (out : result (option bool)),
            let self' := fst (Action.set_result fed ref, out) in
            Action.fields self' = Action.fields self
            /\ Action.as_list self' = Action.as_list self
            /\ Action.responses self' = (Action.responses self ++ [message])%list
            /\ Action.responses_index self' = Action.responses_index self
            /\ (forall r, Action.future self = Some r -> Action.future self' = Some r)).
  { intros Hd ref out; cbn. repeat split; auto.
    intros r Hr. unfold Action.done, fed in Hd; cbn in Hd.
    rewrite Hr in Hd. discriminate. }
  destruct (Action.read_multi fed) as [m|e]; [|apply Hfed].
  destruct (Action.read_completed fed) as [c|e]; [|apply Hfed].
  destruct (attr_truthy c && negb (Action.done fed)) eqn:E; [|apply Hfed].
  apply andb_prop in E as [_ E]. apply negb_true_iff in E.
  destruct (attr_truthy m && _); [apply Hset, E|].
  destruct (negb (attr_truthy m)); [|apply Hfed].
  destruct (index_first (Action.responses fed)); [apply Hset, E|apply Hfed].
Qed.

(** C1.  [add_message] first appends the message, whatever happens
    next.  If then [completed] holds and the future is still pending:
    with [multi] true and more than one response buffered it resolves
    with the buffered responses and returns [True]; with [multi] false it
    resolves with the first buffered response and returns [True]; with
    [multi] true and a single response buffered it leaves the future
    pending and returns [False]. *)
Theorem add_message_feed (self : Action.t) (message : Message) :
  let fed := Action.append self message in
  let after := Action.add_message self message in
  Action.responses (fst after) = (Action.responses self ++ [message])%list
  /\ (Action.completed fed = Ok true ->
      Action.future self = None ->
      (Action.multi fed = Ok true ->
       1 < List.length (Action.responses fed) ->
       after = (Action.set_result fed Action.RefResponses, Ok (Some true))
       /\ Action.resultState (fst after)
          = Action.ResolvedMany (Action.responses self ++ [message])%list)
      /\ (Action.multi fed = Ok false ->
          exists first,
            index_first (Action.responses self ++ [message])%list = Ok first
            /\ after = (Action.set_result fed (Action.RefMessage first), Ok (Some true))
            /\ Action.resultState (fst after) = Action.ResolvedOne first)
      /\ (Action.multi fed = Ok true ->
          List.length (Action.responses fed) = 1 ->
          after = (fed, Ok (Some false))
          /\ Action.resultState (fst after) = Action.Pending)).
Proof.
  cbv zeta. split; [apply add_message_state|].
  intros Hc Hp.
  assert (Hd : Action.done (Action.append self message) = false)
    by (unfold Action.done; cbn; now rewrite Hp).
  unfold Action.add_message.
  rewrite (read_completed_Ok _ _ Hc), Hd. cbn [attr_truthy andb negb].
  split; [|split].
  - intros Hm Hlen. apply Nat.ltb_lt in Hlen.
    rewrite (read_multi_Ok _ _ Hm), Hlen. cbn [attr_truthy andb]. split; reflexivity.
  - intros Hm. rewrite (read_multi_Ok _ _ Hm). cbn [attr_truthy andb negb].
    destruct (Action.responses self) as [|r0 rest] eqn:Hr.
    + exists message. cbn. rewrite Hr. cbn. auto.
    + exists r0. cbn. rewrite Hr. cbn. auto.
  - intros Hm Hlen. rewrite (read_multi_Ok _ _ Hm), Hlen.
    cbn [attr_truthy andb Nat.ltb Nat.leb negb fst].
    split; [reflexivity|].
    unfold Action.resultState. cbn. now rewrite Hp.
Qed.

Lemma add_message_feed_witness :
  Action.add_message (request [("Action", PStr "Ping")] None) (reply "Success" "Pong")
  = (Action.set_result
       (Action.append (request [("Action", PStr "Ping")] None) (reply "Success" "Pong"))
       (Action.RefMessage (reply "Success" "Pong")),
     Ok (Some true)).
Proof.
  destruct (add_message_feed (request [("Action", PStr "Ping")] None)
              (reply "Success" "Pong")) as [_ H].
  destruct (H eq_refl eq_refl) as [_ [H1 _]].
  destruct (H1 eq_refl) as [first [Hf [Ha _]]].
  vm_compute in Hf. injection Hf as <-. exact Ha.
Defined.

(** C2.  A request without an [Async] field whose first response says
    "Originate successfully queued": no override, no earlier signal,
    and the message ends with "successfully queued".  The
    specification makes [multi] a truth value here; the code looks
    [async] up with [self['async']] and raises [KeyError], and so does
    [add_message] after it has buffered the response. *)
Theorem multi_originate_without_async :
  let first := reply "Success" "Originate successfully queued" in
  Action.as_list originate = None
  /\ response_signal first "Originate successfully queued" = false
  /\ endswith (lower "Originate successfully queued") "successfully queued" = true
  /\ CaseInsensitiveDict.contains (Action.fields originate) "async" = false
  /\ Action.multi (Action.append originate first) = Raise KeyError
  /\ snd (Action.add_message originate first) = Raise KeyError.
Proof. cbv zeta. repeat split; reflexivity. Qed.

(** C3.  On a request whose last buffered response has the event name
    [event], [completed] is true exactly when the event name ends with
    "Complete", or the subevent is "End" or "Exec", or the response is
    one of "Success", "Error", "Fail", "Failure", or [multi] reads as
    false.  When the getter of [multi] returns its truth value, the last
    case is that this value is [False]. *)
Theorem completed_classification (self : Action.t) (rN : Message) (event : string) :
  index_last (Action.responses self) = Ok rN ->
  msg_event rN = PStr event ->
  (Action.read_completed self = Ok (Bool true) <->
   endswith event "Complete" = true
   \/ py_in (msg_subevent rN) ["End"; "Exec"] = true
   \/ py_in (msg_response rN) ["Success"; "Error"; "Fail"; "Failure"] = true
   \/ exists m, Action.read_multi self = Ok m /\ attr_truthy m = false)
  /\ (forall b, Action.multi self = Ok b ->
      (Action.read_completed self = Ok (Bool true) <->
       endswith event "Complete" = true
       \/ py_in (msg_subevent rN) ["End"; "Exec"] = true
       \/ py_in (msg_response rN) ["Success"; "Error"; "Fail"; "Failure"] = true
       \/ b = false)).
Proof.
  intros Hlast Hevent.
  assert (Hmain : Action.read_completed self = Ok (Bool true) <->
            endswith event "Complete" = true
            \/ py_in (msg_subevent rN) ["End"; "Exec"] = true
            \/ py_in (msg_response rN) ["Success"; "Error"; "Fail"; "Failure"] = true
            \/ exists m, Action.read_multi self = Ok m /\ attr_truthy m = false).
  { unfold Action.read_completed. rewrite property_Bool.
    rewrite (completed_unfold self rN event Hlast Hevent).
    destruct (endswith event "Complete"); [cbn [orb]; tauto|].
    destruct (py_in (msg_subevent rN) _); [cbn [orb]; tauto|].
    destruct (py_in (msg_response rN) _); [cbn [orb]; tauto|].
    cbn [orb]. destruct (Action.read_multi self) as [m|e]; cbn [bind]; split.
    - intros H. do 3 right. exists m. split; [reflexivity|].
      injection H as H. now apply negb_true_iff.
    - intros [H|[H|[H|[m' [H1 H2]]]]]; try discriminate.
      injection H1 as <-. now rewrite H2.
    - discriminate.
    - intros [H|[H|[H|[m' [H1 _]]]]]; discriminate. }
  split; [exact Hmain|].
  intros b Hb. rewrite Hmain, (read_multi_Ok self b Hb).
  split; intros [H|[H|[H|H]]]; auto.
  - destruct H as [m [H1 H2]]. injection H1 as <-. auto.
  - do 3 right. exists (Bool b). auto.
Qed.

Lemma completed_classification_witness :
  Action.read_completed
    (Action.append (Action.append (request [("Action", PStr "Status")] None)
                      (event "Status" "Start"))
       (event "StatusComplete" ""))
  = Ok (Bool true).
Proof.
  apply (proj1 (completed_classification
                  (Action.append (Action.append (request [("Action", PStr "Status")] None)
                                    (event "Status" "Start"))
                     (event "StatusComplete" ""))
                  (event "StatusComplete" "") "StatusComplete" eq_refl eq_refl)).
  left; reflexivity.
Defined.

(** C10, counterexample to the statement of the specification: the
    first response need not carry a text message for [multi] to be
    evaluated.  The getter raises [AttributeError], Python falls back on
    [__getattr__], and [self.multi] reads as the empty string, for an
    override that forces single mode as for one that forces list mode;
    [add_message] goes on and resolves the request with the first
    response. *)
Lemma multi_reads_without_text_message :
  let first := reply_lines "Success" ["line 1"; "line 2"] in
  Action.read_multi
    (Action.append (request [("Action", PStr "Ping")] (Some false)) first)
  = Ok (Field (PStr ""))
  /\ Action.read_multi
       (Action.append (request [("Action", PStr "Ping")] (Some true)) first)
     = Ok (Field (PStr ""))
  /\ Action.add_message (request [("Action", PStr "Ping")] (Some true)) first
     = (Action.set_result
          (Action.append (request [("Action", PStr "Ping")] (Some true)) first)
          (Action.RefMessage first),
        Ok (Some true)).
Proof. cbv zeta. repeat split; reflexivity. Qed.

(** C10, amended.  [multi] and [completed] raise [IndexError] on an
    empty buffer, so reading either needs a buffered response.  The
    getter of [multi] lower-cases the message of the first response
    before it looks at [as_list]: whatever the override, [self.multi]
    reads as a truth value only if that message is a string; when it is
    not, the getter raises [AttributeError] and the read gives what
    [__getattr__] finds for [multi], the empty string unless the request
    has a field of that name. *)
Theorem classification_defined :
  (forall self, Action.responses self = [] ->
     Action.read_multi self = Raise IndexError
     /\ Action.read_completed self = Raise IndexError)
  /\ (forall self m, Action.read_multi self = Ok m ->
        Action.responses self <> [])
  /\ (forall self c, Action.read_completed self = Ok c ->
        exists rest rN, Action.responses self = (rest ++ [rN])%list)
  /\ (forall self b, Action.read_multi self = Ok (Bool b) ->
        exists r0 rest msg,
          Action.responses self = r0 :: rest /\ msg_message r0 = PStr msg)
  /\ (forall d override fut r0 rest i,
        (forall msg, msg_message r0 <> PStr msg) ->
        Action.multi (Action.mk d override fut (r0 :: rest) i)
        = Raise AttributeError
        /\ Action.read_multi (Action.mk d override fut (r0 :: rest) i)
           = Ok (Field (CaseInsensitiveDict.getattr d "multi"))
        /\ (CaseInsensitiveDict.contains d "multi" = false ->
            Action.read_multi (Action.mk d override fut (r0 :: rest) i)
            = Ok (Field (PStr "")))).
Proof.
  assert (Hnil : forall self, Action.responses self = [] ->
            Action.read_multi self = Raise IndexError
            /\ Action.read_completed self = Raise IndexError).
  { intros self H. unfold Action.read_multi, Action.read_completed,
      Action.multi, Action.completed, index_last. now rewrite H. }
  split; [exact Hnil|]. split; [|split; [|split]].
  - intros self m Hm Hr. destruct (Hnil self Hr) as [H _]. congruence.
  - intros self c Hc.
    destruct (Action.responses self) as [|x l] eqn:E using rev_ind.
    + destruct (Hnil self E) as [_ H]. congruence.
    + now exists l, x.
  - intros self b Hb. apply property_Bool in Hb. now apply multi_defined in Hb.
  - intros d override fut r0 rest i H.
    assert (Hm : Action.multi (Action.mk d override fut (r0 :: rest) i)
                 = Raise AttributeError).
    { unfold Action.multi. cbn.
      destruct (msg_message r0) as [|s|l]; try reflexivity.
      now destruct (H s). }
    split; [exact Hm|].
    unfold Action.read_multi. rewrite Hm. cbn [property Action.fields].
    split; [reflexivity|].
    unfold CaseInsensitiveDict.contains, CaseInsensitiveDict.getattr.
    destruct (CaseInsensitiveDict.find _ _) as [[k v]|]; [discriminate|reflexivity].
Qed.

(** ** The stream and sequences of operations *)

Lemma firstn_snoc_nth_error {A : Type} (l : list A) (n : nat) (x : A) :
  nth_error l n = Some x -> firstn (n + 1) l = (firstn n l ++ [x])%list.
Proof.
  revert n; induction l as [|y l IH]; intros [|n] H; simpl in *;
    try discriminate.
  - now injection H as ->.
  - f_equal. now apply IH.
Qed.

Lemma firstn_app_le {A : Type} (l more : list A) (n : nat) :
  n <= List.length l -> firstn n (l ++ more) = firstn n l.
Proof.
  intros H. rewrite firstn_app.
  replace (n - List.length l) with 0 by lia.
  simpl. apply app_nil_r.
Qed.

Lemma anext_Return (self : Action.t) :
  Action.responses_index self < List.length (Action.responses self) ->
  exists res,
    nth_error (Action.responses self) (Action.responses_index self) = Some res
    /\ Action.anext self
       = (Action.mk (Action.fields self) (Action.as_list self)
            (Action.future self) (Action.responses self)
            (Action.responses_index self + 1),
          Action.Return res).
Proof.
  intros H. apply nth_error_Some in H. unfold Action.anext.
  destruct (nth_error _ _) as [res|]; [|congruence].
  now exists res.
Qed.

Lemma anext_Stop (self : Action.t) :
  snd (Action.anext self) = Action.StopAsyncIteration <->
  Action.done self = true
  /\ List.length (Action.responses self) <= Action.responses_index self.
Proof.
  unfold Action.anext.
  destruct (nth_error _ _) as [res|] eqn:E.
  - split; [discriminate|]. intros [_ H].
    apply nth_error_None in H. congruence.
  - apply nth_error_None in E.
    destruct (Action.done self); cbn; split; auto; try discriminate.
    intros [H _]; discriminate.
Qed.

(** What one operation leaves alone and what it moves. *)
Lemma step_frame (self : Action.t) (o : op) :
  let self' := fst (step self o) in
  Action.fields self' = Action.fields self
  /\ Action.responses self' = (Action.responses self ++ fed [o])%list
  /\ (forall r, Action.future self = Some r -> Action.future self' = Some r)
  /\ Action.responses_index self <= Action.responses_index self'.
Proof.
  destruct o as [message|]; cbn [step fed flat_map].
  - pose proof (add_message_state self message) as H. cbv zeta in H.
    destruct H as (Hf & _ & Hr & Hi & Hp). cbn [fst].
    rewrite Hf, Hr, Hi, app_nil_r. auto.
  - unfold Action.anext.
    destruct (nth_error _ _) as [res|]; [|destruct (Action.done self)];
      cbn; rewrite app_nil_r; repeat split; auto; lia.
Qed.

(** The stream has handed out the responses below the cursor. *)
Lemma step_stream (self : Action.t) (o : op) :
  Action.responses_index self <= List.length (Action.responses self) ->
  let '(self', out) := step self o in
  Action.responses_index self' <= List.length (Action.responses self')
  /\ firstn (Action.responses_index self') (Action.responses self')
     = (firstn (Action.responses_index self) (Action.responses self) ++ out)%list.
Proof.
  intros Hle. destruct o as [message|]; cbn [step].
  - pose proof (add_message_state self message) as H. cbv zeta in H.
    destruct H as (_ & _ & Hr & Hi & _).
    rewrite Hr, Hi, length_app, app_nil_r. cbn [List.length]. split; [lia|].
    now apply firstn_app_le.
  - unfold Action.anext.
    destruct (nth_error _ _) as [res|] eqn:E.
    + cbn. split.
      * assert (Action.responses_index self < List.length (Action.responses self))
          by (apply nth_error_Some; congruence). lia.
      * now apply firstn_snoc_nth_error.
    + destruct (Action.done self); cbn; rewrite app_nil_r; auto.
Qed.

Lemma run_frame (ops : list op) : forall self : Action.t,
  let final := fst (run self ops) in
  Action.fields final = Action.fields self
  /\ Action.responses final = (Action.responses self ++ fed ops)%list
  /\ (forall r, Action.future self = Some r -> Action.future final = Some r)
  /\ Action.responses_index self <= Action.responses_index final.
Proof.
  induction ops as [|o ops IH]; intros self; cbn [run].
  - cbn. rewrite app_nil_r. auto.
  - pose proof (step_frame self o) as H. cbv zeta in H.
    destruct (step self o) as [self1 out1]. cbn [fst] in H.
    specialize (IH self1). cbv zeta in IH.
    destruct (run self1 ops) as [self2 out2]. cbn [fst] in *.
    destruct H as (Hf & Hr & Hp & Hi). destruct IH as (Hf' & Hr' & Hp' & Hi').
    rewrite Hf', Hf, Hr', Hr. repeat split; auto.
    + unfold fed; cbn [flat_map]. now rewrite app_nil_r, <- app_assoc.
    + lia.
Qed.

Lemma run_stream (ops : list op) : forall self : Action.t,
  Action.responses_index self <= List.length (Action.responses self) ->
  let '(final, out) := run self ops in
  Action.responses_index final <= List.length (Action.responses final)
  /\ firstn (Action.responses_index final) (Action.responses final)
     = (firstn (Action.responses_index self) (Action.responses self) ++ out)%list.
Proof.
  induction ops as [|o ops IH]; intros self Hle; cbn [run].
  - rewrite app_nil_r. auto.
  - pose proof (step_stream self o Hle) as H.
    destruct (step self o) as [self1 out1]. destruct H as [Hle1 H1].
    specialize (IH self1 Hle1).
    destruct (run self1 ops) as [self2 out2]. destruct IH as [Hle2 H2].
    split; [exact Hle2|]. now rewrite H2, H1, app_assoc.
Qed.

(** ** The field container *)

Lemma find_replace_same (k : string) (e : string * pyval) (d : CaseInsensitiveDict.t) :
  CaseInsensitiveDict.find k (CaseInsensitiveDict.replace k e d) = Some e.
Proof.
  induction d as [|[k' e'] d IH]; simpl.
  - now rewrite String.eqb_refl.
  - destruct (String.eqb k k') eqn:E; simpl; rewrite ?String.eqb_refl, ?E; auto.
Qed.

Lemma find_replace_other (k k' : string) (e : string * pyval) (d : CaseInsensitiveDict.t) :
  k' <> k ->
  CaseInsensitiveDict.find k' (CaseInsensitiveDict.replace k e d)
  = CaseInsensitiveDict.find k' d.
Proof.
  intros Hne. apply String.eqb_neq in Hne.
  induction d as [|[k0 e0] d IH]; simpl.
  - now rewrite Hne.
  - destruct (String.eqb k k0) eqn:E; simpl.
    + apply String.eqb_eq in E; subst k0. now rewrite Hne.
    + now rewrite IH.
Qed.

Lemma getattr_setitem (d : CaseInsensitiveDict.t) (key attr : string) (v : pyval) :
  lower attr = lower key ->
  CaseInsensitiveDict.getattr (CaseInsensitiveDict.setitem d key v) attr = v.
Proof.
  intros H. unfold CaseInsensitiveDict.getattr, CaseInsensitiveDict.setitem.
  now rewrite H, find_replace_same.
Qed.

Lemma getattr_setitem_other (d : CaseInsensitiveDict.t) (key attr : string) (v : pyval) :
  lower attr <> lower key ->
  CaseInsensitiveDict.getattr (CaseInsensitiveDict.setitem d key v) attr
  = CaseInsensitiveDict.getattr d attr.
Proof.
  intros H. unfold CaseInsensitiveDict.getattr, CaseInsensitiveDict.setitem.
  now rewrite find_replace_other.
Qed.

Lemma contains_setitem_other (d : CaseInsensitiveDict.t) (key k : string) (v : pyval) :
  lower k <> lower key ->
  CaseInsensitiveDict.contains (CaseInsensitiveDict.setitem d key v) k
  = CaseInsensitiveDict.contains d k.
Proof.
  intros H. unfold CaseInsensitiveDict.contains, CaseInsensitiveDict.setitem.
  now rewrite find_replace_other.
Qed.

(** A key the mapping holds reads the same through [d[key]] and
    through the attribute. *)
Lemma getitem_getattr (d : CaseInsensitiveDict.t) (key attr : string) :
  lower key = lower attr ->
  CaseInsensitiveDict.contains d key = true ->
  CaseInsensitiveDict.getitem d key = Ok (CaseInsensitiveDict.getattr d attr).
Proof.
  unfold CaseInsensitiveDict.contains, CaseInsensitiveDict.getitem,
    CaseInsensitiveDict.getattr.
  intros <-. destruct (CaseInsensitiveDict.find _ _) as [[k v]|];
    [reflexivity|discriminate].
Qed.

Lemma contains_setitem (d : CaseInsensitiveDict.t) (key k : string) (v : pyval) :
  lower k = lower key ->
  CaseInsensitiveDict.contains (CaseInsensitiveDict.setitem d key v) k = true.
Proof.
  intros H. unfold CaseInsensitiveDict.contains, CaseInsensitiveDict.setitem.
  now rewrite H, find_replace_same.
Qed.

Lemma issued_id_category (g : IdGenerator.t) :
  exists rest, fst (IdGenerator.call g) = IdGenerator.prefix g ++ "/" ++ rest
  /\ IdGenerator.prefix (snd (IdGenerator.call g)) = IdGenerator.prefix g.
Proof. eexists. split; reflexivity. Qed.

Lemma issued_id_not_empty (g : IdGenerator.t) : IdGenerator.current g <> "".
Proof.
  unfold IdGenerator.current.
  destruct (IdGenerator.prefix g); discriminate.
Qed.

(** ** Construction *)

Lemma init_unfold (g : IdGenerator.t) (data : list (string * pyval))
    (override : option bool) :
  Action.init g data override =
  if CaseInsensitiveDict.contains (CaseInsensitiveDict.init data) "actionid"
  then (Action.mk (CaseInsensitiveDict.init data) override None [] 0, g)
  else (Action.mk
          (CaseInsensitiveDict.setitem (CaseInsensitiveDict.init data)
             "ActionID" (PStr (IdGenerator.current g)))
          override None [] 0,
        snd (IdGenerator.call g)).
Proof.
  unfold Action.init.
  destruct (CaseInsensitiveDict.contains _ _); reflexivity.
Qed.

Lemma init_state (g : IdGenerator.t) (data : list (string * pyval))
    (override : option bool) :
  let self := fst (Action.init g data override) in
  Action.as_list self = override
  /\ Action.future self = None
  /\ Action.responses self = []
  /\ Action.responses_index self = 0.
Proof.
  cbv zeta. rewrite init_unfold.
  destruct (CaseInsensitiveDict.contains _ _); cbn; auto.
Qed.

Lemma evolves_prefix (g0 g : IdGenerator.t) :
  IdGenerator.evolves g0 g -> IdGenerator.prefix g = IdGenerator.prefix g0.
Proof. induction 1; cbn; auto. Qed.

(** The ids of an issuer created for a category start with the
    category. *)
Lemma evolves_category (category uid : string) (g : IdGenerator.t) :
  IdGenerator.evolves (IdGenerator.init category uid) g ->
  exists rest, fst (IdGenerator.call g) = category ++ "/" ++ rest.
Proof.
  intros H. apply evolves_prefix in H. cbn in H.
  destruct (issued_id_category g) as [rest [Hid _]].
  exists rest. now rewrite Hid, H.
Qed.

Lemma action_init_state (g : IdGenerator.t) (data : list (string * pyval))
    (override : option bool) :
  let d := CaseInsensitiveDict.init data in
  let self := fst (Action.init g data override) in
  let g' := snd (Action.init g data override) in
  (CaseInsensitiveDict.contains d "actionid" = false ->
     Action.fields self
     = CaseInsensitiveDict.setitem d "ActionID" (PStr (fst (IdGenerator.call g)))
     /\ g' = snd (IdGenerator.call g)
     /\ Action.id self = PStr (fst (IdGenerator.call g)))
  /\ (CaseInsensitiveDict.contains d "actionid" = true ->
     Action.fields self = d /\ g' = g
     /\ Action.id self = CaseInsensitiveDict.getattr d "actionid")
  /\ Action.as_list self = override
  /\ Action.responses self = []
  /\ Action.responses_index self = 0
  /\ Action.resultState self = Action.Pending
  /\ CaseInsensitiveDict.getitem (Action.fields self) "ActionID" = Ok (Action.id self).
Proof.
  cbv zeta. rewrite init_unfold.
  destruct (CaseInsensitiveDict.contains _ _) eqn:E; cbn [fst snd];
    repeat split; try discriminate; auto.
  - now apply getitem_getattr.
  - unfold Action.id. cbn [Action.fields]. now apply getattr_setitem.
  - apply getitem_getattr; [reflexivity|]. now apply contains_setitem.
Qed.

(** C9.  Construction with the issuer of the class,
    [action_id_generator = utils.IdGenerator('action')], in any state
    [g] it has reached: when the initial mapping holds no key that reads
    as [ActionID], the issuer supplies one, an id of category "action",
    and advances; a key supplied by the caller leaves the mapping and
    the issuer as they are.  The buffer starts empty, the cursor at 0,
    the future pending, and [id] returns the [ActionID] field. *)
Theorem action_init (uid : string) (g : IdGenerator.t)
    (data : list (string * pyval)) (override : option bool) :
  IdGenerator.evolves (Action.action_id_generator uid) g ->
  let d := CaseInsensitiveDict.init data in
  let self := fst (Action.init g data override) in
  let g' := snd (Action.init g data override) in
  (CaseInsensitiveDict.contains d "actionid" = false ->
     Action.fields self
     = CaseInsensitiveDict.setitem d "ActionID" (PStr (fst (IdGenerator.call g)))
     /\ g' = snd (IdGenerator.call g)
     /\ Action.id self = PStr (fst (IdGenerator.call g))
     /\ exists rest, Action.id self = PStr ("action/" ++ rest))
  /\ (CaseInsensitiveDict.contains d "actionid" = true ->
     Action.fields self = d /\ g' = g
     /\ Action.id self = CaseInsensitiveDict.getattr d "actionid")
  /\ Action.as_list self = override
  /\ Action.responses self = []
  /\ Action.responses_index self = 0
  /\ Action.resultState self = Action.Pending
  /\ CaseInsensitiveDict.getitem (Action.fields self) "ActionID" = Ok (Action.id self)
  /\ IdGenerator.evolves (Action.action_id_generator uid) g'.
Proof.
  intros Hg. cbv zeta.
  pose proof (action_init_state g data override) as H. cbv zeta in H.
  destruct H as (Habsent & Hsupplied & Ho & Hr & Hi & Hp & Hid).
  split; [|split; [exact Hsupplied|]].
  - intros Hc. destruct (Habsent Hc) as (Hf & Hg' & Ha).
    split; [exact Hf|]. split; [exact Hg'|]. split; [exact Ha|].
    destruct (evolves_category "action" uid g Hg) as [rest Hrest].
    exists rest. now rewrite Ha, Hrest.
  - split; [exact Ho|]. split; [exact Hr|]. split; [exact Hi|].
    split; [exact Hp|]. split; [exact Hid|].
    destruct (CaseInsensitiveDict.contains (CaseInsensitiveDict.init data) "actionid")
      eqn:Hc.
    + destruct (Hsupplied eq_refl) as (_ & -> & _). exact Hg.
    + destruct (Habsent eq_refl) as (_ & -> & _).
      now apply IdGenerator.evolves_call.
Qed.

Lemma action_init_witness :
  Action.id (fst (Action.init (snd (IdGenerator.call (Action.action_id_generator "myuuid")))
                    [("Action", PStr "SIPnotify"); ("Variable", PList ["1"; "2"])]
                    None))
  = PStr "action/myuuid/1/2".
Proof.
  refine (proj1 (proj2 (proj2 (proj1
    (action_init "myuuid" (snd (IdGenerator.call (Action.action_id_generator "myuuid")))
       [("Action", PStr "SIPnotify"); ("Variable", PList ["1"; "2"])] None _)
    eq_refl)))).
  apply IdGenerator.evolves_call, IdGenerator.evolves_created.
Defined.

Ltac key_neq :=
  let H := fresh in intro H; vm_compute in H; discriminate H.

Ltac dict :=
  unfold CaseInsensitiveDict.getitem, CaseInsensitiveDict.getattr,
    CaseInsensitiveDict.contains, CaseInsensitiveDict.setitem in *;
  repeat first
    [ rewrite find_replace_same
    | rewrite find_replace_other by key_neq ].

Lemma command_init_state (ga gc : IdGenerator.t) (data : list (string * pyval))
    (override : option bool) :
  let a := fst (Action.init ga data override) in
  let d := Action.fields a in
  let d' := if CaseInsensitiveDict.contains d "action" then d
            else CaseInsensitiveDict.setitem d "Action" (PStr "Command") in
  let built := Command.init ga gc data override in
  let self := fst (fst built) in
  snd (fst built) = snd (Action.init ga data override)
  /\ (CaseInsensitiveDict.contains d "action" = false ->
      CaseInsensitiveDict.getitem (Action.fields self) "Action" = Ok (PStr "Command"))
  /\ (CaseInsensitiveDict.contains d "commandid" = false ->
      Action.fields self
      = CaseInsensitiveDict.setitem d' "CommandID" (PStr (fst (IdGenerator.call gc)))
      /\ snd built = snd (IdGenerator.call gc)
      /\ Command.id self = PStr (fst (IdGenerator.call gc)))
  /\ (CaseInsensitiveDict.contains d "commandid" = true ->
      Action.fields self = d' /\ snd built = gc
      /\ Command.id self = CaseInsensitiveDict.getattr d "commandid")
  /\ CaseInsensitiveDict.getitem (Action.fields self) "CommandID" = Ok (Command.id self)
  /\ Action.id self = Action.id a
  /\ Command.action_id self
     = (if truthy (Action.id a) then Action.id a else PNone)
  /\ Action.responses self = [] /\ Action.responses_index self = 0
  /\ Action.future self = None
  /\ (IdGenerator.prefix gc = "command" ->
      exists rest, fst (IdGenerator.call gc) = "command/" ++ rest).
Proof.
  cbv zeta.
  assert (Hcat : IdGenerator.prefix gc = "command" ->
                 exists rest, fst (IdGenerator.call gc) = "command/" ++ rest).
  { intros Hp. destruct (issued_id_category gc) as [rest [H _]].
    exists rest. now rewrite H, Hp. }
  unfold Command.init.
  pose proof (init_state ga data override) as Ha. cbv zeta in Ha.
  destruct Ha as (_ & Hf & Hr & Hi).
  destruct (Action.init ga data override) as [a ga0]. cbn [fst snd] in *.
  unfold Command.action_id, Command.id, Action.id, Command.set_fields.
  destruct (CaseInsensitiveDict.contains (Action.fields a) "action") eqn:Eact;
    cbn [negb];
    [ destruct (CaseInsensitiveDict.contains (Action.fields a) "commandid") eqn:Ecid
    | destruct (CaseInsensitiveDict.contains
                  (Action.fields
                     (Action.mk
                        (CaseInsensitiveDict.setitem (Action.fields a)
                           "Action" (PStr "Command"))
                        (Action.as_list a) (Action.future a)
                        (Action.responses a) (Action.responses_index a)))
                  "commandid") eqn:Ecid;
      cbn [Action.fields] in Ecid;
      rewrite contains_setitem_other in Ecid by key_neq; rewrite Ecid ];
    cbn [negb fst snd Action.fields Action.responses Action.responses_index
         Action.future IdGenerator.call];
    repeat split; auto; try discriminate; intros;
    try (now apply getitem_getattr);
    try (apply getitem_getattr;
         [reflexivity | rewrite contains_setitem_other by key_neq; exact Ecid]);
    try (dict; reflexivity).
Qed.

(** C8.  Construction of a [Command] with the issuers of the classes,
    [action_id_generator] and
    [command_id_generator = utils.IdGenerator('command')], in any states
    they have reached: the [Action] part is built as for any request; an
    absent [Action] field is set to "Command"; an absent [CommandID] is
    taken from the issuer for "command", which advances, and a supplied
    one is kept.  [id] returns the [CommandID] field.  [action_id]
    returns the [ActionID] field: the issued id of category "action"
    when the caller supplied none, else the caller's value, or [None]
    when that is empty. *)
Theorem command_init (uid_a uid_c : string) (ga gc : IdGenerator.t)
    (data : list (string * pyval)) (override : option bool) :
  IdGenerator.evolves (Action.action_id_generator uid_a) ga ->
  IdGenerator.evolves (Command.command_id_generator uid_c) gc ->
  let a := fst (Action.init ga data override) in
  let d := Action.fields a in
  let d' := if CaseInsensitiveDict.contains d "action" then d
            else CaseInsensitiveDict.setitem d "Action" (PStr "Command") in
  let built := Command.init ga gc data override in
  let self := fst (fst built) in
  snd (fst built) = snd (Action.init ga data override)
  /\ (CaseInsensitiveDict.contains d "action" = false ->
      CaseInsensitiveDict.getitem (Action.fields self) "Action" = Ok (PStr "Command"))
  /\ (CaseInsensitiveDict.contains d "commandid" = false ->
      Action.fields self
      = CaseInsensitiveDict.setitem d' "CommandID" (PStr (fst (IdGenerator.call gc)))
      /\ snd built = snd (IdGenerator.call gc)
      /\ Command.id self = PStr (fst (IdGenerator.call gc))
      /\ exists rest, Command.id self = PStr ("command/" ++ rest))
  /\ (CaseInsensitiveDict.contains d "commandid" = true ->
      Action.fields self = d' /\ snd built = gc
      /\ Command.id self = CaseInsensitiveDict.getattr d "commandid")
  /\ CaseInsensitiveDict.getitem (Action.fields self) "CommandID" = Ok (Command.id self)
  /\ Action.id self = Action.id a
  /\ Command.action_id self
     = (if truthy (Action.id a) then Action.id a else PNone)
  /\ (CaseInsensitiveDict.contains (CaseInsensitiveDict.init data) "actionid" = false ->
      Command.action_id self = PStr (fst (IdGenerator.call ga))
      /\ exists rest, Command.action_id self = PStr ("action/" ++ rest))
  /\ (CaseInsensitiveDict.contains (CaseInsensitiveDict.init data) "actionid" = true ->
      Command.action_id self
      = if truthy (CaseInsensitiveDict.getattr (CaseInsensitiveDict.init data) "actionid")
        then CaseInsensitiveDict.getattr (CaseInsensitiveDict.init data) "actionid"
        else PNone)
  /\ Action.responses self = [] /\ Action.responses_index self = 0
  /\ Action.future self = None
  /\ IdGenerator.evolves (Action.action_id_generator uid_a) (snd (fst built))
  /\ IdGenerator.evolves (Command.command_id_generator uid_c) (snd built).
Proof.
  intros Hga Hgc. cbv zeta.
  pose proof (command_init_state ga gc data override) as H. cbv zeta in H.
  destruct H as (Hgen & Haction & Habsent & Hsupplied & Hcid & Hid & Haid
                 & Hr & Hi & Hf & _).
  pose proof (action_init_state ga data override) as Ha. cbv zeta in Ha.
  destruct Ha as (Ha_absent & Ha_supplied & _).
  split; [exact Hgen|]. split; [exact Haction|]. split.
  { intros Hc. destruct (Habsent Hc) as (H1 & H2 & H3).
    split; [exact H1|]. split; [exact H2|]. split; [exact H3|].
    destruct (evolves_category "command" uid_c gc Hgc) as [rest Hrest].
    exists rest. now rewrite H3, Hrest. }
  split; [exact Hsupplied|]. split; [exact Hcid|]. split; [exact Hid|].
  split; [exact Haid|]. split.
  { intros Hc. destruct (Ha_absent Hc) as (_ & _ & Hissued).
    assert (Ht : truthy (PStr (fst (IdGenerator.call ga))) = true).
    { cbn. apply negb_true_iff, String.eqb_neq, issued_id_not_empty. }
    rewrite Haid, Hissued, Ht. split; [reflexivity|].
    destruct (evolves_category "action" uid_a ga Hga) as [rest Hrest].
    exists rest. now rewrite Hrest. }
  split.
  { intros Hc. destruct (Ha_supplied Hc) as (_ & _ & Hkept).
    now rewrite Haid, Hkept. }
  split; [exact Hr|]. split; [exact Hi|]. split; [exact Hf|]. split.
  - rewrite Hgen.
    destruct (CaseInsensitiveDict.contains (CaseInsensitiveDict.init data) "actionid")
      eqn:Hc.
    + destruct (Ha_supplied eq_refl) as (_ & -> & _). exact Hga.
    + destruct (Ha_absent eq_refl) as (_ & -> & _).
      now apply IdGenerator.evolves_call.
  - destruct (CaseInsensitiveDict.contains
                (Action.fields (fst (Action.init ga data override))) "commandid")
      eqn:Hc.
    + destruct (Hsupplied eq_refl) as (_ & -> & _). exact Hgc.
    + destruct (Habsent eq_refl) as (_ & -> & _).
      now apply IdGenerator.evolves_call.
Qed.

Lemma command_init_witness :
  Command.id
    (fst (fst (Command.init (Action.action_id_generator "myuuid")
                 (Command.command_id_generator "myuuid")
                 [("Command", PStr "Do something")] None)))
  = PStr "command/myuuid/1/1"
  /\ Command.action_id
       (fst (fst (Command.init (Action.action_id_generator "myuuid")
                    (Command.command_id_generator "myuuid")
                    [("Command", PStr "Do something")] None)))
     = PStr "action/myuuid/1/1".
Proof.
  pose proof (command_init "myuuid" "myuuid"
                (Action.action_id_generator "myuuid")
                (Command.command_id_generator "myuuid")
                [("Command", PStr "Do something")] None
                (IdGenerator.evolves_created _) (IdGenerator.evolves_created _)) as H.
  cbv zeta in H.
  destruct H as (_ & _ & Hcid & _ & _ & _ & _ & Haid & _).
  split.
  - exact (proj1 (proj2 (proj2 (Hcid eq_refl)))).
  - exact (proj1 (Haid eq_refl)).
Defined.

(** ** Claims on the stream and on the state *)

(** C5.  One pass of [__anext__] with the cursor below the buffer
    length returns the response at the cursor and moves the cursor by
    one.  It raises [StopAsyncIteration] exactly when the future is done
    and the cursor is not below the buffer length.  Started on an empty
    buffer, after any interleaving of feeds and passes the stream has
    handed out the fed messages below the cursor, in the order they were
    fed, and all of them when it signals the end. *)
Theorem anext_stream :
  (forall self,
     Action.responses_index self < List.length (Action.responses self) ->
     exists res,
       nth_error (Action.responses self) (Action.responses_index self) = Some res
       /\ Action.anext self
          = (Action.mk (Action.fields self) (Action.as_list self)
               (Action.future self) (Action.responses self)
               (Action.responses_index self + 1),
             Action.Return res))
  /\ (forall self,
        snd (Action.anext self) = Action.StopAsyncIteration <->
        Action.done self = true
        /\ List.length (Action.responses self) <= Action.responses_index self)
  /\ (forall self ops,
        Action.responses self = [] ->
        Action.responses_index self = 0 ->
        let final := fst (run self ops) in
        let out := snd (run self ops) in
        Action.responses final = fed ops
        /\ Action.responses_index final <= List.length (fed ops)
        /\ out = firstn (Action.responses_index final) (fed ops)
        /\ (snd (Action.anext final) = Action.StopAsyncIteration ->
            Action.done final = true
            /\ Action.responses_index final = List.length (fed ops)
            /\ out = fed ops)).
Proof.
  split; [exact anext_Return|]. split; [exact anext_Stop|].
  intros self ops Hnil Hzero. cbv zeta.
  pose proof (run_frame ops self) as Hf. cbv zeta in Hf.
  destruct Hf as (_ & Hr & _ & _).
  assert (Hle : Action.responses_index self <= List.length (Action.responses self))
    by (rewrite Hzero; lia).
  pose proof (run_stream ops self Hle) as Hs.
  destruct (run self ops) as [final out]. cbn [fst snd] in *.
  destruct Hs as [Hle' Hout].
  rewrite Hnil in Hr; cbn in Hr. rewrite Hzero, Hr in Hout. cbn in Hout.
  rewrite Hr in Hle'.
  split; [exact Hr|]. split; [exact Hle'|]. split; [now symmetry|].
  intros Hstop. apply anext_Stop in Hstop as [Hdone Hlen]. rewrite Hr in Hlen.
  split; [exact Hdone|]. split; [lia|].
  rewrite <- Hout. now apply firstn_all2.
Qed.

Lemma anext_stream_witness :
  snd (run (request [("Action", PStr "Status")] None)
         [Next; Feed (event "Status" "Start"); Next;
          Feed (event "StatusComplete" ""); Next; Next])
  = [event "Status" "Start"; event "StatusComplete" ""].
Proof.
  destruct anext_stream as (_ & _ & H).
  specialize (H (request [("Action", PStr "Status")] None)
                [Next; Feed (event "Status" "Start"); Next;
                 Feed (event "StatusComplete" ""); Next; Next]
                eq_refl eq_refl).
  cbv zeta in H. destruct H as (_ & _ & _ & H).
  exact (proj2 (proj2 (H eq_refl))).
Defined.

(** C6, counterexample to the statement of the specification: a
    request resolved with the list of its responses holds the buffer
    itself as its result, so the next message fed shows up in the
    result. *)
Lemma add_message_changes_list_result :
  let self :=
    fst (run (request [("Action", PStr "Status")] (Some true))
           [Feed (reply "Success" "first"); Feed (reply "Success" "second")]) in
  let message := reply "Success" "third" in
  Action.resultState self
  = Action.ResolvedMany [reply "Success" "first"; reply "Success" "second"]
  /\ Action.resultState (fst (Action.add_message self message))
     = Action.ResolvedMany [reply "Success" "first"; reply "Success" "second";
                            reply "Success" "third"]
  /\ Action.resultState (fst (Action.add_message self message))
     <> Action.resultState self.
Proof.
  cbv zeta. repeat split; try reflexivity.
  vm_compute. discriminate.
Qed.

(** A future that is done stays done through the append and is not
    set again. *)
Lemma add_message_done (self : Action.t) (message : Message)
    (r : Action.result_ref) :
  Action.future self = Some r ->
  fst (Action.add_message self message) = Action.append self message
  /\ forall b, snd (Action.add_message self message) <> Ok (Some b).
Proof.
  intros Hr. unfold Action.add_message.
  assert (Hd : Action.done (Action.append self message) = true)
    by (unfold Action.done; cbn; now rewrite Hr).
  destruct (Action.read_multi _) as [m|e]; [|split; [reflexivity|discriminate]].
  destruct (Action.read_completed _) as [c|e];
    [|split; [reflexivity|discriminate]].
  rewrite Hd. cbn [negb]. rewrite andb_false_r.
  split; [reflexivity|discriminate].
Qed.

(** Once the future is done, [multi] has been read on a buffered
    response, and it reads the same ever after. *)
Lemma step_resolved_reads (self : Action.t) (o : op) :
  (Action.future self <> None ->
   Action.responses self <> [] /\ exists m, Action.read_multi self = Ok m) ->
  Action.future (fst (step self o)) <> None ->
  Action.responses (fst (step self o)) <> []
  /\ exists m, Action.read_multi (fst (step self o)) = Ok m.
Proof.
  intros Hinv. destruct o as [message|]; cbn [step fst].
  - destruct (Action.future self) as [r|] eqn:Hfu.
    + intros _. destruct Hinv as [Hne [m Hm]]; [discriminate|].
      destruct (add_message_done self message r Hfu) as [-> _].
      split; [cbn; now destruct (Action.responses self)|].
      exists m. now rewrite read_multi_append.
    + unfold Action.add_message.
      set (fed := Action.append self message).
      assert (Hne : Action.responses fed <> [])
        by (unfold fed; cbn; now destruct (Action.responses self)).
      destruct (Action.read_multi fed) as [m|e] eqn:Hm.
      * assert (Hall : forall s : Action.t,
                  Action.responses s = Action.responses fed ->
                  Action.read_multi s = Action.read_multi fed ->
                  Action.responses s <> []
                  /\ exists m', Action.read_multi s = Ok m').
        { intros s -> ->. split; [exact Hne|now exists m]. }
        destruct (Action.read_completed fed) as [c|e];
          [|intros _; now apply Hall].
        destruct (attr_truthy c && negb (Action.done fed));
          [|intros _; now apply Hall].
        destruct (attr_truthy m && _); [intros _; now apply Hall|].
        destruct (negb (attr_truthy m)); [|intros _; now apply Hall].
        destruct (index_first (Action.responses fed));
          intros _; now apply Hall.
      * cbn [fst]. unfold fed at 1. cbn [Action.append Action.future].
        now rewrite Hfu.
  - unfold Action.anext.
    destruct (nth_error _ _); [|destruct (Action.done self)]; exact Hinv.
Qed.

Lemma run_resolved_reads (ops : list op) : forall self : Action.t,
  (Action.future self <> None ->
   Action.responses self <> [] /\ exists m, Action.read_multi self = Ok m) ->
  Action.future (fst (run self ops)) <> None ->
  Action.responses (fst (run self ops)) <> []
  /\ exists m, Action.read_multi (fst (run self ops)) = Ok m.
Proof.
  induction ops as [|o ops IH]; intros self H; [exact H|].
  cbn [run]. pose proof (step_resolved_reads self o H) as H1.
  destruct (step self o) as [self1 out1]. cbn [fst] in H1.
  specialize (IH self1 H1). destruct (run self1 ops). exact IH.
Qed.

(** C6, amended.  On a request that was built pending and that the
    feeds since then have resolved, [add_message] appends the message,
    where the stream finds it, and does not call [set_result]: the
    future keeps what it was resolved with and the call returns [None].
    A result that is a single message is unchanged; a result that is
    the list of responses is the buffer and so ends with the new
    message.  On any object whose future is done, [add_message] leaves
    the object as the append left it and returns neither [True] nor
    [False]. *)
Theorem add_message_after_resolution (start : Action.t) (ops : list op)
    (message : Message) (r : Action.result_ref) :
  Action.future start = None ->
  Action.future (fst (run start ops)) = Some r ->
  let self := fst (run start ops) in
  let after := fst (Action.add_message self message) in
  Action.add_message self message = (Action.append self message, Ok None)
  /\ Action.responses after = (Action.responses self ++ [message])%list
  /\ nth_error (Action.responses after) (List.length (Action.responses self))
     = Some message
  /\ Action.future after = Some r
  /\ Action.resultState after
     = match r with
       | Action.RefMessage first => Action.ResolvedOne first
       | Action.RefResponses =>
           Action.ResolvedMany (Action.responses self ++ [message])%list
       end
  /\ (forall any : Action.t,
        Action.future any = Some r ->
        fst (Action.add_message any message) = Action.append any message
        /\ forall b, snd (Action.add_message any message) <> Ok (Some b)).
Proof.
  intros Hp Hr. cbv zeta.
  assert (Hreads : Action.responses (fst (run start ops)) <> []
                   /\ exists m, Action.read_multi (fst (run start ops)) = Ok m).
  { apply run_resolved_reads; [|rewrite Hr; discriminate].
    intros H. now rewrite Hp in H. }
  set (self := fst (run start ops)) in *.
  destruct Hreads as [Hne [m Hm]].
  assert (Hm' : Action.read_multi (Action.append self message) = Ok m)
    by (now rewrite read_multi_append).
  destruct (read_completed_Ok_of_multi (Action.append self message) m) as [c Hc];
    [cbn; now destruct (Action.responses self) | exact Hm' |].
  assert (E : Action.add_message self message = (Action.append self message, Ok None)).
  { unfold Action.add_message. rewrite Hm', Hc.
    unfold Action.done. cbn [Action.append Action.future]. rewrite Hr.
    now rewrite andb_false_r. }
  rewrite E. cbn [fst Action.append Action.responses Action.future].
  split; [reflexivity|]. split; [reflexivity|]. split.
  { rewrite nth_error_app2, Nat.sub_diag by lia. reflexivity. }
  split; [exact Hr|]. split.
  { unfold Action.resultState. cbn. rewrite Hr. now destruct r. }
  intros any Hany. exact (add_message_done any message r Hany).
Qed.

Lemma add_message_after_resolution_witness :
  Action.add_message
    (fst (run (request [("Action", PStr "Ping")] None) [Feed (reply "Success" "Pong")]))
    (reply "Success" "again")
  = (Action.append
       (fst (run (request [("Action", PStr "Ping")] None)
               [Feed (reply "Success" "Pong")]))
       (reply "Success" "again"),
     Ok None).
Proof.
  exact (proj1 (add_message_after_resolution
    (request [("Action", PStr "Ping")] None) [Feed (reply "Success" "Pong")]
    (reply "Success" "again")
    (Action.RefMessage (reply "Success" "Pong")) eq_refl eq_refl)).
Defined.

(** C7, counterexample to the statement of the specification: an
    [ActionID] supplied by the caller is kept as it is, also when it is
    empty. *)
Lemma caller_supplied_id_may_be_empty :
  Action.id (fst (Action.init (myuuid "action")
                    [("Action", PStr "Ping"); ("ActionID", PStr "")] None))
  = PStr "".
Proof. reflexivity. Qed.

(** C7, amended.  An [ActionID] assigned at construction is the issued
    id, which is not empty.  No sequence of feeds and stream passes
    changes the fields, so the id stays what construction made it, and
    non-empty if it was; the buffer only grows; a future that is done
    keeps its result reference, so it is resolved at most once; the
    cursor never decreases and stays within the buffer length. *)
Theorem request_invariants (self : Action.t) (ops : list op) :
  let final := fst (run self ops) in
  (forall g data override,
     CaseInsensitiveDict.contains (CaseInsensitiveDict.init data) "actionid" = false ->
     Action.id (fst (Action.init g data override)) = PStr (IdGenerator.current g)
     /\ IdGenerator.current g <> "")
  /\ Action.id final = Action.id self
  /\ (Action.id self <> PStr "" -> Action.id final <> PStr "")
  /\ (exists more, Action.responses final = (Action.responses self ++ more)%list)
  /\ (forall r, Action.future self = Some r -> Action.future final = Some r)
  /\ Action.responses_index self <= Action.responses_index final
  /\ (Action.responses_index self <= List.length (Action.responses self) ->
      Action.responses_index final <= List.length (Action.responses final)).
Proof.
  cbv zeta.
  pose proof (run_frame ops self) as Hf. cbv zeta in Hf.
  destruct Hf as (Hd & Hr & Hp & Hi).
  assert (Hid : Action.id (fst (run self ops)) = Action.id self)
    by (unfold Action.id; now rewrite Hd).
  split; [|repeat split; auto].
  - intros g data override Hc. rewrite init_unfold, Hc. cbn [fst].
    split; [|apply issued_id_not_empty].
    unfold Action.id. cbn [Action.fields]. now apply getattr_setitem.
  - now rewrite Hid.
  - now exists (fed ops).
  - intros Hle. pose proof (run_stream ops self Hle) as Hs.
    destruct (run self ops) as [final out]. cbn [fst]. tauto.
Qed.

Lemma request_invariants_witness :
  Action.responses_index
    (fst (run (request [("Action", PStr "Status")] None)
            [Feed (event "Status" "Start"); Next; Next]))
  <= List.length
       (Action.responses
          (fst (run (request [("Action", PStr "Status")] None)
                  [Feed (event "Status" "Start"); Next; Next]))).
Proof.
  destruct (request_invariants (request [("Action", PStr "Status")] None)
              [Feed (event "Status" "Start"); Next; Next])
    as (_ & _ & _ & _ & _ & _ & H).
  apply H. vm_compute. apply le_n.
Defined.

(** ** Code-point order of strings *)

Lemma ascii_compare_lt_trans (a b c : ascii) :
  Ascii.compare a b = Lt -> Ascii.compare b c = Lt -> Ascii.compare a c = Lt.
Proof.
  unfold Ascii.compare. rewrite !BinNat.N.compare_lt_iff.
  apply BinNat.N.lt_trans.
Qed.

Lemma string_leb_trans (s1 s2 s3 : string) :
  String.leb s1 s2 = true -> String.leb s2 s3 = true -> String.leb s1 s3 = true.
Proof.
  unfold String.leb. revert s2 s3.
  induction s1 as [|c1 t1 IH]; intros [|c2 t2] [|c3 t3]; simpl; auto;
    try discriminate.
  destruct (Ascii.compare c1 c2) eqn:E12; try discriminate.
  - apply Ascii.compare_eq_iff in E12; subst c2.
    destruct (Ascii.compare c1 c3); auto. apply IH.
  - destruct (Ascii.compare c2 c3) eqn:E23; try discriminate.
    + apply Ascii.compare_eq_iff in E23; subst c3. now rewrite E12.
    + now rewrite (ascii_compare_lt_trans _ _ _ E12 E23).
Qed.

Lemma string_leb_false (s1 s2 : string) :
  String.leb s1 s2 = false -> String.leb s2 s1 = true.
Proof.
  intros H. destruct (String.leb_total s1 s2) as [E|E]; congruence.
Qed.

Lemma append_nil_r (s : string) : s ++ "" = s.
Proof. induction s as [|c s IH]; simpl; congruence. Qed.

Lemma append_assoc (s1 s2 s3 : string) : (s1 ++ s2) ++ s3 = s1 ++ s2 ++ s3.
Proof. induction s1 as [|c s1 IH]; simpl; congruence. Qed.

(** ** [sorted] *)

Lemma insert_Permutation (x : string * pyval) (l : list (string * pyval)) :
  Permutation (Action.insert x l) (x :: l).
Proof.
  induction l as [|y l IH]; simpl; [reflexivity|].
  destruct (Action.item_leb x y); [reflexivity|].
  rewrite IH. apply perm_swap.
Qed.

Lemma sorted_Permutation (l : list (string * pyval)) :
  Permutation (Action.sorted l) l.
Proof.
  induction l as [|x l IH]; simpl; [reflexivity|].
  rewrite insert_Permutation. now constructor.
Qed.

Lemma insert_StronglySorted (x : string * pyval) (l : list (string * pyval)) :
  StronglySorted item_le l -> StronglySorted item_le (Action.insert x l).
Proof.
  induction 1 as [|y l Hs IH Hy]; simpl.
  - repeat constructor.
  - destruct (Action.item_leb x y) eqn:E.
    + constructor; [now constructor|].
      constructor; [exact E|].
      eapply Forall_impl; [|exact Hy].
      intros z Hz. unfold item_le, Action.item_leb in *.
      eapply string_leb_trans; eassumption.
    + constructor; [exact IH|].
      apply (Permutation_Forall (Permutation_sym (insert_Permutation x l))).
      constructor; [|exact Hy].
      unfold item_le, Action.item_leb in *. now apply string_leb_false.
Qed.

Lemma sorted_StronglySorted (l : list (string * pyval)) :
  StronglySorted item_le (Action.sorted l).
Proof.
  induction l as [|x l IH]; simpl; [constructor|].
  now apply insert_StronglySorted.
Qed.

Lemma same_key_same_item (l : list (string * pyval)) (a b : string * pyval) :
  NoDup (map fst l) -> In a l -> In b l -> fst a = fst b -> a = b.
Proof.
  induction l as [|x l IH]; simpl; [tauto|].
  intros Hnd Ha Hb Hk. inversion Hnd as [|? ? Hnin Hnd']; subst.
  destruct Ha as [<-|Ha], Hb as [<-|Hb]; auto.
  - exfalso. apply Hnin. rewrite Hk. now apply in_map.
  - exfalso. apply Hnin. rewrite <- Hk. now apply in_map.
Qed.

(** Two sorted lists with the same entries under distinct keys are the
    same list. *)
Lemma StronglySorted_unique (l1 : list (string * pyval)) :
  forall l2,
    NoDup (map fst l1) ->
    StronglySorted item_le l1 -> StronglySorted item_le l2 ->
    Permutation l1 l2 -> l1 = l2.
Proof.
  induction l1 as [|a t1 IH]; intros l2 Hnd S1 S2 P.
  - now apply Permutation_nil in P.
  - destruct l2 as [|b t2]; [now apply Permutation_sym, Permutation_nil in P|].
    assert (Hab : a = b).
    { assert (Ha : In a (b :: t2)) by (eapply Permutation_in; [exact P|now left]).
      assert (Hb : In b (a :: t1))
        by (eapply Permutation_in; [exact (Permutation_sym P)|now left]).
      destruct Ha as [Ha|Ha]; [now symmetry|].
      destruct Hb as [Hb|Hb]; [exact Hb|].
      apply StronglySorted_inv in S1 as [_ F1].
      apply StronglySorted_inv in S2 as [_ F2].
      rewrite Forall_forall in F1, F2.
      apply (same_key_same_item (a :: t1)); auto; [now left|now right|].
      apply String.leb_antisym; [apply (F1 b Hb)|apply (F2 a Ha)]. }
    subst b. f_equal.
    apply StronglySorted_inv in S1 as [S1 _].
    apply StronglySorted_inv in S2 as [S2 _].
    inversion Hnd; subst.
    apply IH; auto. now apply Permutation_cons_inv in P.
Qed.

Lemma sorted_order_independent (l1 l2 : list (string * pyval)) :
  NoDup (map fst l1) -> Permutation l1 l2 -> Action.sorted l1 = Action.sorted l2.
Proof.
  intros Hnd P. apply StronglySorted_unique.
  - eapply Permutation_NoDup; [|exact Hnd].
    apply Permutation_map, Permutation_sym, sorted_Permutation.
  - apply sorted_StronglySorted.
  - apply sorted_StronglySorted.
  - rewrite sorted_Permutation, P. symmetry. apply sorted_Permutation.
Qed.

(** ** Well-formed stores *)

Lemma replace_In_key (k k' : string) (e : string * pyval) (d : CaseInsensitiveDict.t) :
  In k' (map fst (CaseInsensitiveDict.replace k e d)) ->
  k' = k \/ In k' (map fst d).
Proof.
  induction d as [|[k0 e0] d IH]; simpl.
  - intros [H|[]]; auto.
  - destruct (String.eqb k k0) eqn:E; simpl.
    + apply String.eqb_eq in E; subst k0. tauto.
    + intros [H|H]; [tauto|]. apply IH in H. tauto.
Qed.

Lemma replace_NoDup (k : string) (e : string * pyval) (d : CaseInsensitiveDict.t) :
  NoDup (map fst d) -> NoDup (map fst (CaseInsensitiveDict.replace k e d)).
Proof.
  induction d as [|[k0 e0] d IH]; simpl; intros Hnd.
  - repeat constructor. intros [].
  - inversion Hnd as [|? ? Hnin Hnd']; subst.
    destruct (String.eqb k k0) eqn:E; simpl.
    + apply String.eqb_eq in E; subst k0. now constructor.
    + constructor; [|now apply IH].
      intros H. apply replace_In_key in H as [H|H]; [|contradiction].
      subst k0. now rewrite String.eqb_refl in E.
Qed.

Lemma replace_Forall (P : string * (string * pyval) -> Prop) (k : string)
    (e : string * pyval) (d : CaseInsensitiveDict.t) :
  P (k, e) -> Forall P d -> Forall P (CaseInsensitiveDict.replace k e d).
Proof.
  intros Hk. induction 1 as [|[k0 e0] d H0 Hd IH]; simpl.
  - now repeat constructor.
  - destruct (String.eqb k k0); constructor; auto.
Qed.

Lemma wf_setitem (d : CaseInsensitiveDict.t) (key : string) (v : pyval) :
  CaseInsensitiveDict.wf d ->
  CaseInsensitiveDict.wf (CaseInsensitiveDict.setitem d key v).
Proof.
  intros [Hnd Hk]. split.
  - now apply replace_NoDup.
  - now apply replace_Forall.
Qed.

Lemma wf_update (data : list (string * pyval)) : forall d : CaseInsensitiveDict.t,
  CaseInsensitiveDict.wf d ->
  CaseInsensitiveDict.wf (CaseInsensitiveDict.update d data).
Proof.
  unfold CaseInsensitiveDict.update.
  induction data as [|[k v] data IH]; intros d Hd; simpl; [exact Hd|].
  now apply IH, wf_setitem.
Qed.

Lemma wf_init (data : list (string * pyval)) :
  CaseInsensitiveDict.wf (CaseInsensitiveDict.init data).
Proof.
  apply wf_update. split; constructor.
Qed.

Lemma wf_action_init (g : IdGenerator.t) (data : list (string * pyval))
    (override : option bool) :
  CaseInsensitiveDict.wf (Action.fields (fst (Action.init g data override))).
Proof.
  rewrite init_unfold.
  destruct (CaseInsensitiveDict.contains _ _); cbn [fst Action.fields];
    [|apply wf_setitem]; apply wf_init.
Qed.

Lemma wf_command_init (ga gc : IdGenerator.t) (data : list (string * pyval))
    (override : option bool) :
  CaseInsensitiveDict.wf
    (Action.fields (fst (fst (Command.init ga gc data override)))).
Proof.
  unfold Command.init.
  pose proof (wf_action_init ga data override) as H.
  destruct (Action.init ga data override) as [a ga0]. cbn [fst] in H.
  destruct (negb (CaseInsensitiveDict.contains (Action.fields a) "action"));
    match goal with
    | |- context [if negb (CaseInsensitiveDict.contains ?d ?k) then _ else _] =>
        destruct (negb (CaseInsensitiveDict.contains d k))
    end;
    cbn [fst Action.fields Command.set_fields IdGenerator.call];
    repeat apply wf_setitem; exact H.
Qed.

(** The spelled keys of a well-formed store are distinct. *)
Lemma wf_items_NoDup (d : CaseInsensitiveDict.t) :
  CaseInsensitiveDict.wf d -> NoDup (map fst (CaseInsensitiveDict.items d)).
Proof.
  intros [Hnd Hk]. unfold CaseInsensitiveDict.items.
  apply NoDup_map_inv with (f := lower).
  replace (map lower (map fst (map snd d))) with (map fst d); [exact Hnd|].
  clear Hnd. induction Hk as [|e d He Hd IH]; simpl; [reflexivity|].
  now rewrite IH, He.
Qed.

(** ** The wire text *)

Lemma concat_lines (EOL : string) (action : list string) :
  String.concat EOL (action ++ [EOL])
  = String.concat "" (map (fun line => line ++ EOL) action) ++ EOL.
Proof.
  induction action as [|line action IH]; [reflexivity|].
  change ((line :: action) ++ [EOL])%list with (line :: (action ++ [EOL])%list).
  cbn [map String.concat].
  destruct (action ++ [EOL])%list as [|x xs] eqn:E.
  - now destruct action.
  - rewrite IH. destruct action as [|l2 action]; simpl.
    + now rewrite append_assoc.
    + now rewrite !append_assoc.
Qed.

(** C4, counterexample to the statement of the specification:
    [sorted] compares the keys as they are spelled, by code point, so
    every upper-case letter comes before every lower-case one; the lines
    are then not in case-insensitive order. *)
Lemma str_not_case_insensitive_order :
  let self := request [("action", PStr "Ping"); ("Beta", PStr "x")] None in
  Action.str CRLF self
  = "ActionID: 1" ++ CRLF ++ "Beta: x" ++ CRLF ++ "action: Ping" ++ CRLF ++ CRLF
  /\ ~ Sorted item_ci_le
         (Action.sorted (CaseInsensitiveDict.items (Action.fields self))).
Proof.
  cbv zeta. split; [reflexivity|].
  intros H. vm_compute in H.
  inversion H as [|? ? H1 _]; subst.
  inversion H1 as [|? ? _ H2]; subst.
  inversion H2 as [|? ? H3]; subst.
  vm_compute in H3. discriminate H3.
Qed.

(** C4, amended.  [__str__] emits, for the fields in the code-point
    order of their keys as spelled, one line [Key: value] for a string
    value and one line per element for a list value, each followed by
    the line terminator, and then one more line terminator.  The fields
    of a request or command have distinct keys, and then the text
    depends on the contents of the mapping only, not on the order of
    insertion. *)
Theorem str_wire_text (EOL : string) (self other : Action.t) :
  let items := Action.sorted (CaseInsensitiveDict.items (Action.fields self)) in
  Action.str EOL self
  = String.concat "" (map (fun line => line ++ EOL) (flat_map Action.lines items))
    ++ EOL
  /\ Permutation items (CaseInsensitiveDict.items (Action.fields self))
  /\ StronglySorted (fun a b => String.leb (fst a) (fst b) = true) items
  /\ (forall k v, Action.lines (k, PStr v) = [k ++ ": " ++ v])
  /\ (forall k v, Action.lines (k, PList v) = map (fun i => k ++ ": " ++ i) v)
  /\ (forall g data override,
        CaseInsensitiveDict.wf (Action.fields (fst (Action.init g data override))))
  /\ (forall ga gc data override,
        CaseInsensitiveDict.wf
          (Action.fields (fst (fst (Command.init ga gc data override)))))
  /\ (CaseInsensitiveDict.wf (Action.fields self) ->
      Permutation (Action.fields self) (Action.fields other) ->
      Action.str EOL other = Action.str EOL self).
Proof.
  cbv zeta.
  split; [apply concat_lines|].
  split; [apply sorted_Permutation|].
  split; [apply sorted_StronglySorted|].
  split; [reflexivity|]. split; [reflexivity|].
  split; [exact wf_action_init|]. split; [exact wf_command_init|].
  - intros Hwf P. unfold Action.str. do 3 f_equal.
    symmetry. apply sorted_order_independent.
    + now apply wf_items_NoDup.
    + unfold CaseInsensitiveDict.items. now apply Permutation_map.
Qed.

Lemma str_wire_text_witness :
  Action.str CRLF
    (fst (Action.init (myuuid "action")
            [("Variable", PList ["1"; "2"]); ("ActionID", PStr "7");
             ("Action", PStr "SIPnotify")] None))
  = Action.str CRLF
      (fst (Action.init (myuuid "action")
              [("Action", PStr "SIPnotify"); ("ActionID", PStr "7");
               ("Variable", PList ["1"; "2"])] None)).
Proof.
  apply (str_wire_text CRLF
    (fst (Action.init (myuuid "action")
            [("Action", PStr "SIPnotify"); ("ActionID", PStr "7");
             ("Variable", PList ["1"; "2"])] None))
    (fst (Action.init (myuuid "action")
            [("Variable", PList ["1"; "2"]); ("ActionID", PStr "7");
             ("Action", PStr "SIPnotify")] None))).
  - apply wf_action_init.
  - vm_compute.
    apply (Permutation_trans (perm_skip _ (perm_swap _ _ _))).
    apply (Permutation_trans (perm_swap _ _ _)).
    apply perm_skip. apply perm_swap.
Defined.

(** * Further properties of the code *)

(** ** Classification and resolution *)

Lemma run_as_list (ops : list op) : forall self : Action.t,
  Action.as_list (fst (run self ops)) = Action.as_list self.
Proof.
  induction ops as [|o ops IH]; intros self; cbn [run]; [reflexivity|].
  assert (H : Action.as_list (fst (step self o)) = Action.as_list self).
  { destruct o as [message|]; cbn [step].
    - apply add_message_state.
    - unfold Action.anext.
      destruct (nth_error _ _); [|destruct (Action.done self)]; reflexivity. }
  destruct (step self o) as [self1 out1]. cbn [fst] in H.
  specialize (IH self1). destruct (run self1 ops) as [self2 out2].
  cbn [fst] in *. congruence.
Qed.

(** X1.  [multi] looks at the first response only: once a response is
    buffered, no sequence of feeds and stream passes changes what
    [multi] returns or raises. *)
Theorem multi_fixed_by_first_response (self : Action.t) (ops : list op) :
  Action.responses self <> [] ->
  Action.multi (fst (run self ops)) = Action.multi self.
Proof.
  intros Hne. pose proof (run_frame ops self) as H. cbv zeta in H.
  destruct H as (Hf & Hr & _ & _).
  apply multi_ext; [exact Hf | apply run_as_list |].
  rewrite Hr. now apply index_first_app.
Qed.

Lemma multi_fixed_by_first_response_witness :
  Action.multi
    (fst (run (Action.append (request [("Action", PStr "Status")] None)
                 (event "Status" "Start"))
            [Next; Feed (reply "Success" "done"); Next]))
  = Action.multi
      (Action.append (request [("Action", PStr "Status")] None)
         (event "Status" "Start")).
Proof.
  apply multi_fixed_by_first_response. discriminate.
Defined.

Lemma completed_terminal (self : Action.t) (message : Message) (name : string) :
  msg_event message = PStr name ->
  Action.completed (Action.append self message) =
  if terminal message name then Ok true
  else m <- Action.read_multi (Action.append self message) ;;
       Ok (negb (attr_truthy m)).
Proof.
  intros Hevent.
  apply (completed_unfold (Action.append self message) message name);
    [apply index_last_app | exact Hevent].
Qed.

(** X2.  A request that is not [multi] is complete on any response: a
    pending request resolves on the first message it is fed, with that
    message, and [add_message] returns [True]; no marker is needed on
    the message, only an event name that is a string. *)
Theorem single_resolves_on_first_response (self : Action.t) (message : Message)
    (name : string) :
  Action.responses self = [] ->
  Action.future self = None ->
  msg_event message = PStr name ->
  Action.multi (Action.append self message) = Ok false ->
  Action.completed (Action.append self message) = Ok true
  /\ Action.add_message self message
     = (Action.set_result (Action.append self message) (Action.RefMessage message),
        Ok (Some true))
  /\ Action.resultState (fst (Action.add_message self message))
     = Action.ResolvedOne message.
Proof.
  intros Hnil Hp Hevent Hm.
  assert (Hc : Action.completed (Action.append self message) = Ok true).
  { rewrite (completed_terminal self message name Hevent), (read_multi_Ok _ _ Hm).
    now destruct (terminal message name). }
  assert (Ha : Action.add_message self message
               = (Action.set_result (Action.append self message)
                    (Action.RefMessage message), Ok (Some true))).
  { unfold Action.add_message.
    rewrite (read_multi_Ok _ _ Hm), (read_completed_Ok _ _ Hc).
    unfold Action.done. cbn [Action.append Action.future Action.responses].
    rewrite Hp, Hnil. reflexivity. }
  split; [exact Hc|]. split; [exact Ha|]. now rewrite Ha.
Qed.

Lemma single_resolves_on_first_response_witness :
  Action.resultState
    (fst (Action.add_message (request [("Action", PStr "Status")] (Some false))
            (event "Status" "Start")))
  = Action.ResolvedOne (event "Status" "Start").
Proof.
  exact (proj2 (proj2 (single_resolves_on_first_response
    (request [("Action", PStr "Status")] (Some false)) (event "Status" "Start")
    "Status" eq_refl eq_refl eq_refl eq_refl))).
Defined.

(** X3.  A [multi] request never resolves on its first response: fed
    into an empty buffer, the message leaves the future as it was, and
    [add_message] does not return [True]; it returns [False] when the
    message carries a marker of completion and the future is pending. *)
Theorem multi_waits_for_second_response (self : Action.t) (message : Message) :
  Action.responses self = [] ->
  Action.multi (Action.append self message) = Ok true ->
  fst (Action.add_message self message) = Action.append self message
  /\ snd (Action.add_message self message) <> Ok (Some true)
  /\ (Action.completed (Action.append self message) = Ok true ->
      Action.future self = None ->
      snd (Action.add_message self message) = Ok (Some false)).
Proof.
  intros Hnil Hm. unfold Action.add_message.
  set (fed := Action.append self message) in *.
  assert (Hlen : (1 <? List.length (Action.responses fed))%nat = false)
    by (unfold fed; cbn; now rewrite Hnil).
  rewrite (read_multi_Ok _ _ Hm), Hlen. cbn [attr_truthy andb negb].
  destruct (Action.read_completed fed) as [c|e] eqn:Hrc.
  - destruct (attr_truthy c && negb (Action.done fed)) eqn:E; cbn [fst snd].
    + repeat split; discriminate.
    + split; [reflexivity|]. split; [discriminate|].
      intros Hc Hp. rewrite (read_completed_Ok _ _ Hc) in Hrc.
      injection Hrc as <-.
      unfold Action.done, fed in E. cbn in E. rewrite Hp in E. discriminate.
  - cbn [fst snd]. split; [reflexivity|]. split; [discriminate|].
    intros Hc _. rewrite (read_completed_Ok _ _ Hc) in Hrc. discriminate.
Qed.

Lemma multi_waits_for_second_response_witness :
  snd (Action.add_message (request [("Action", PStr "QueueStatus")] None)
         (reply "Success" "Queue status will follow"))
  = Ok (Some false).
Proof.
  exact (proj2 (proj2 (multi_waits_for_second_response
    (request [("Action", PStr "QueueStatus")] None)
    (reply "Success" "Queue status will follow") eq_refl eq_refl))
    eq_refl eq_refl).
Defined.

(** X4.  A pending [multi] request with a response already buffered
    resolves as soon as a message carries a marker of completion (an
    event name ending in "Complete", a subevent "End" or "Exec", a
    response "Success", "Error", "Fail" or "Failure"): the result is
    the list of all responses buffered, the new one last, and
    [add_message] returns [True]. *)
Theorem multi_resolves_on_marker (self : Action.t) (message : Message)
    (name : string) :
  Action.responses self <> [] ->
  Action.future self = None ->
  Action.multi (Action.append self message) = Ok true ->
  msg_event message = PStr name ->
  terminal message name = true ->
  Action.add_message self message
  = (Action.set_result (Action.append self message) Action.RefResponses,
     Ok (Some true))
  /\ Action.resultState (fst (Action.add_message self message))
     = Action.ResolvedMany (Action.responses self ++ [message])%list.
Proof.
  intros Hne Hp Hm Hevent Ht.
  assert (Hc : Action.completed (Action.append self message) = Ok true)
    by (now rewrite (completed_terminal self message name Hevent), Ht).
  assert (Hlen : (1 <? List.length (Action.responses (Action.append self message)))%nat
                 = true).
  { apply Nat.ltb_lt. cbn [Action.append Action.responses].
    rewrite length_app. cbn [List.length].
    destruct (Action.responses self); [congruence|cbn; lia]. }
  assert (Ha : Action.add_message self message
               = (Action.set_result (Action.append self message) Action.RefResponses,
                  Ok (Some true))).
  { unfold Action.add_message.
    rewrite (read_multi_Ok _ _ Hm), (read_completed_Ok _ _ Hc), Hlen.
    unfold Action.done. cbn [Action.append Action.future]. now rewrite Hp. }
  split; [exact Ha|]. now rewrite Ha.
Qed.

Lemma multi_resolves_on_marker_witness :
  Action.resultState
    (fst (Action.add_message
            (Action.append (request [("Action", PStr "Status")] None)
               (event "Status" "Start"))
            (event "StatusComplete" "")))
  = Action.ResolvedMany [event "Status" "Start"; event "StatusComplete" ""].
Proof.
  refine (proj2 (multi_resolves_on_marker
    (Action.append (request [("Action", PStr "Status")] None) (event "Status" "Start"))
    (event "StatusComplete" "") "StatusComplete" _ eq_refl eq_refl eq_refl eq_refl)).
  discriminate.
Defined.

(** X5.  While a [multi] request receives messages without a marker of
    completion, nothing is resolved: the message is buffered, the future
    stays as it is, and [add_message] returns [None]. *)
Theorem multi_buffers_without_marker (self : Action.t) (message : Message)
    (name : string) :
  Action.multi (Action.append self message) = Ok true ->
  msg_event message = PStr name ->
  terminal message name = false ->
  Action.completed (Action.append self message) = Ok false
  /\ Action.add_message self message = (Action.append self message, Ok None).
Proof.
  intros Hm Hevent Ht.
  assert (Hc : Action.completed (Action.append self message) = Ok false)
    by (now rewrite (completed_terminal self message name Hevent), Ht,
          (read_multi_Ok _ _ Hm)).
  split; [exact Hc|].
  unfold Action.add_message.
  now rewrite (read_multi_Ok _ _ Hm), (read_completed_Ok _ _ Hc).
Qed.

Lemma multi_buffers_without_marker_witness :
  Action.add_message
    (Action.append (request [("Action", PStr "Status")] None) (event "Status" "Start"))
    (event "Status" "")
  = (Action.append
       (Action.append (request [("Action", PStr "Status")] None)
          (event "Status" "Start"))
       (event "Status" ""),
     Ok None).
Proof.
  exact (proj2 (multi_buffers_without_marker
    (Action.append (request [("Action", PStr "Status")] None) (event "Status" "Start"))
    (event "Status" "") "Status" eq_refl eq_refl eq_refl)).
Defined.

(** X6.  [add_message] returns [True] exactly when this call resolved
    the future, which was pending before and is done after; whenever it
    returns anything else or raises, the object is as the append left
    it. *)
Theorem add_message_True_iff_resolved (self : Action.t) (message : Message) :
  (snd (Action.add_message self message) = Ok (Some true) <->
   Action.future self = None
   /\ Action.future (fst (Action.add_message self message)) <> None)
  /\ (snd (Action.add_message self message) <> Ok (Some true) ->
      fst (Action.add_message self message) = Action.append self message).
Proof.
  unfold Action.add_message.
  set (fed := Action.append self message).
  assert (Hfut : Action.future fed = Action.future self) by reflexivity.
  assert (Hkeep : forall out : result (option bool),
            out <> Ok (Some true) ->
            (snd (fed, out) = Ok (Some true) <->
             Action.future self = None /\ Action.future (fst (fed, out)) <> None)
            /\ (snd (fed, out) <> Ok (Some true) -> fst (fed, out) = fed)).
  { intros out Hout. cbn [fst snd]. rewrite Hfut. split; [|reflexivity].
    split; [contradiction|]. intros [H1 H2]. contradiction. }
  assert (Hset : Action.done fed = false ->
            forall ref : Action.result_ref,
            (snd (Action.set_result fed ref, Ok (Some true)) = Ok (Some true) <->
             Action.future self = None
             /\ Action.future (fst (Action.set_result fed ref, @Ok (option bool) (Some true)))
                <> None)
            /\ (snd (Action.set_result fed ref, Ok (Some true)) <> Ok (Some true) ->
                fst (Action.set_result fed ref, @Ok (option bool) (Some true)) = fed)).
  { intros Hd ref. cbn [fst snd Action.set_result Action.future]. split.
    - split; [|reflexivity]. intros _. split; [|discriminate].
      unfold Action.done in Hd. rewrite Hfut in Hd.
      now destruct (Action.future self).
    - intros H. now contradiction H. }
  destruct (Action.read_multi fed) as [m|e]; [|apply Hkeep; discriminate].
  destruct (Action.read_completed fed) as [c|e]; [|apply Hkeep; discriminate].
  destruct (attr_truthy c && negb (Action.done fed)) eqn:E; [|apply Hkeep; discriminate].
  apply andb_prop in E as [_ E]. apply negb_true_iff in E.
  destruct (attr_truthy m && _); [apply Hset, E|].
  destruct (negb (attr_truthy m)); [|apply Hkeep; discriminate].
  destruct (index_first (Action.responses fed));
    [apply Hset, E|apply Hkeep; discriminate].
Qed.

(** ** The stream after the feeds *)

Lemma skipn_nth_error {A : Type} (l : list A) (n : nat) (x : A) :
  nth_error l n = Some x -> skipn n l = x :: skipn (n + 1) l.
Proof.
  revert n; induction l as [|y l IH]; intros [|n] H; simpl in *;
    try discriminate.
  - now injection H as ->.
  - now apply IH.
Qed.

Lemma run_passes (n : nat) : forall self : Action.t,
  Action.responses_index self + n <= List.length (Action.responses self) ->
  run self (repeat Next n)
  = (Action.mk (Action.fields self) (Action.as_list self) (Action.future self)
       (Action.responses self) (Action.responses_index self + n),
     firstn n (skipn (Action.responses_index self) (Action.responses self))).
Proof.
  induction n as [|n IH]; intros self Hle; cbn [repeat run].
  - rewrite Nat.add_0_r. now destruct self.
  - destruct (anext_Return self) as [res [Hres Hnext]]; [lia|].
    cbn [step]. rewrite Hnext.
    rewrite IH by (cbn; lia).
    cbn [Action.fields Action.as_list Action.future Action.responses
         Action.responses_index app].
    rewrite (skipn_nth_error _ _ _ Hres). cbn [firstn].
    now replace (Action.responses_index self + 1 + n)
      with (Action.responses_index self + S n) by lia.
Qed.

(** X7.  A consumer that keeps asking gets everything: from a cursor
    within the buffer, as many passes of [__anext__] as there are
    responses left hand out exactly the responses from the cursor on, in
    order, and put the cursor at the end of the buffer.  The next pass
    raises [StopAsyncIteration] if the future is done and sleeps if it
    is not, and leaves the object alone, so that asking again gives the
    same answer. *)
Theorem stream_drains (self : Action.t) :
  Action.responses_index self <= List.length (Action.responses self) ->
  let left := List.length (Action.responses self) - Action.responses_index self in
  let final := fst (run self (repeat Next left)) in
  snd (run self (repeat Next left))
  = skipn (Action.responses_index self) (Action.responses self)
  /\ Action.responses_index final = List.length (Action.responses self)
  /\ same_but_cursor final self
  /\ Action.anext final
     = (final, if Action.done self then Action.StopAsyncIteration else Action.Sleep)
  /\ Action.anext (fst (Action.anext final)) = Action.anext final.
Proof.
  intros Hle. cbv zeta.
  rewrite run_passes by lia. cbn [fst snd].
  set (final := Action.mk _ _ _ _ _).
  assert (Hlast : Action.anext final
          = (final, if Action.done self then Action.StopAsyncIteration
                    else Action.Sleep)).
  { unfold Action.anext.
    replace (nth_error (Action.responses final) (Action.responses_index final))
      with (@None Message)
      by (symmetry; apply nth_error_None; unfold final; cbn; lia).
    change (Action.done final) with (Action.done self).
    now destruct (Action.done self). }
  split.
  - apply firstn_all2. rewrite length_skipn. lia.
  - split; [unfold final; cbn; lia|].
    split; [repeat split|].
    split; [exact Hlast|]. now rewrite Hlast.
Qed.

Lemma stream_drains_witness :
  snd (run (fst (run (request [("Action", PStr "Ping")] None)
                   [Feed (reply "Success" "Pong"); Feed (reply "Success" "late")]))
         (repeat Next 2))
  = [reply "Success" "Pong"; reply "Success" "late"].
Proof.
  refine (proj1 (stream_drains
    (fst (run (request [("Action", PStr "Ping")] None)
            [Feed (reply "Success" "Pong"); Feed (reply "Success" "late")])) _)).
  vm_compute. apply le_0_n.
Defined.

Lemma add_message_same_but_cursor (a b : Action.t) (message : Message) :
  same_but_cursor a b ->
  same_but_cursor (fst (Action.add_message a message))
                  (fst (Action.add_message b message))
  /\ snd (Action.add_message a message) = snd (Action.add_message b message).
Proof.
  destruct a as [f o fu r i], b as [f' o' fu' r' i'].
  unfold same_but_cursor. cbn [Action.fields Action.as_list Action.future
                                Action.responses].
  intros (<- & <- & <- & <-).
  unfold Action.add_message.
  set (A := Action.append (Action.mk f o fu r i) message).
  set (B := Action.append (Action.mk f o fu r i') message).
  change (Action.read_multi B) with (Action.read_multi A).
  change (Action.read_completed B) with (Action.read_completed A).
  change (Action.done B) with (Action.done A).
  change (Action.responses B) with (Action.responses A).
  destruct (Action.read_multi A) as [m|e]; [|cbn; auto 6].
  destruct (Action.read_completed A) as [c|e]; [|cbn; auto 6].
  destruct (attr_truthy c && negb (Action.done A)); [|cbn; auto 6].
  destruct (attr_truthy m && _); [cbn; auto 6|].
  destruct (negb (attr_truthy m)); [|cbn; auto 6].
  destruct (index_first (Action.responses A)); cbn; auto 6.
Qed.

Lemma anext_same_but_cursor (self : Action.t) :
  same_but_cursor (fst (Action.anext self)) self.
Proof.
  unfold Action.anext.
  destruct (nth_error _ _); [|destruct (Action.done self)];
    repeat split.
Qed.

Lemma same_but_cursor_trans (a b c : Action.t) :
  same_but_cursor a b -> same_but_cursor b c -> same_but_cursor a c.
Proof.
  unfold same_but_cursor. intros (? & ? & ? & ?) (? & ? & ? & ?).
  repeat split; congruence.
Qed.

Lemma run_same_but_cursor (ops : list op) : forall a b : Action.t,
  same_but_cursor a b ->
  same_but_cursor (fst (run a ops)) (fst (run b (feeds ops))).
Proof.
  induction ops as [|o ops IH]; intros a b Hab; [exact Hab|].
  destruct o as [message|].
  - change (feeds (Feed message :: ops)) with (Feed message :: feeds ops).
    cbn [run step].
    pose proof (proj1 (add_message_same_but_cursor a b message Hab)) as H.
    specialize (IH _ _ H).
    destruct (run (fst (Action.add_message a message)) ops).
    destruct (run (fst (Action.add_message b message)) (feeds ops)).
    exact IH.
  - change (feeds (Next :: ops)) with (feeds ops).
    cbn [run step].
    pose proof (same_but_cursor_trans _ _ _ (anext_same_but_cursor a) Hab) as H.
    specialize (IH _ _ H).
    destruct (Action.anext a) as [a' out]. cbn [fst] in IH.
    destruct (run a' ops). exact IH.
Qed.

Lemma run_feeds_index (l : list Message) : forall self : Action.t,
  Action.responses_index (fst (run self (map Feed l)))
  = Action.responses_index self.
Proof.
  induction l as [|m l IH]; intros self; [reflexivity|].
  cbn [map run step]. specialize (IH (fst (Action.add_message self m))).
  destruct (run (fst (Action.add_message self m)) (map Feed l)).
  cbn [fst] in *. rewrite IH. apply add_message_state.
Qed.

(** X8.  Reading the stream has no effect on the result: after any
    interleaving of feeds and passes of [__anext__], the fields, the
    override, the buffer and the future, and so the result a consumer
    of the future reads, are what the feeds alone would have left. *)
Theorem stream_does_not_affect_result (self : Action.t) (ops : list op) :
  same_but_cursor (fst (run self ops)) (fst (run self (feeds ops)))
  /\ Action.resultState (fst (run self ops))
     = Action.resultState (fst (run self (feeds ops)))
  /\ Action.responses_index (fst (run self (feeds ops)))
     = Action.responses_index self.
Proof.
  assert (H : same_but_cursor (fst (run self ops)) (fst (run self (feeds ops))))
    by (apply run_same_but_cursor; repeat split).
  split; [exact H|]. split.
  - destruct H as (_ & _ & Hfu & Hr).
    unfold Action.resultState. now rewrite Hfu, Hr.
  - apply run_feeds_index.
Qed.

Lemma step_resolved_as_classified (self : Action.t) (o : op) :
  resolved_as_classified self -> resolved_as_classified (fst (step self o)).
Proof.
  intros Hinv. destruct o as [message|]; cbn [step fst].
  - destruct (Action.future self) as [r|] eqn:Hfu.
    + destruct (add_message_done self message r Hfu) as [-> _].
      unfold resolved_as_classified in *.
      cbn [Action.append Action.future Action.responses]. rewrite Hfu in *.
      assert (Hne : Action.responses self <> []).
      { destruct r; destruct Hinv as [H _];
          destruct (Action.responses self); cbn in H; try discriminate; lia. }
      rewrite (read_multi_append self message Hne).
      destruct r as [first|]; destruct Hinv as [H1 H2]; split; auto.
      * now rewrite index_first_app.
      * rewrite length_app. lia.
    + unfold Action.add_message.
      set (fed := Action.append self message).
      assert (Hkeep : forall out : result (option bool),
                resolved_as_classified (fst (fed, out))).
      { intros out. unfold resolved_as_classified. cbn. now rewrite Hfu. }
      destruct (Action.read_multi fed) as [m|e] eqn:Hm; [|apply Hkeep].
      destruct (Action.read_completed fed) as [c|e]; [|apply Hkeep].
      destruct (attr_truthy c && negb (Action.done fed)); [|apply Hkeep].
      destruct (attr_truthy m && _) eqn:E.
      * apply andb_prop in E as [Et E]. apply Nat.ltb_lt in E.
        unfold resolved_as_classified. cbn [fst Action.set_result Action.future].
        split; [exact E|]. exists m. split; [exact Hm|exact Et].
      * destruct (attr_truthy m) eqn:Et; cbn [negb]; [apply Hkeep|].
        destruct (index_first (Action.responses fed)) as [first|e] eqn:Hfirst;
          [|apply Hkeep].
        unfold resolved_as_classified. cbn [fst Action.set_result Action.future].
        split; [exact Hfirst|]. exists m. split; [exact Hm|exact Et].
  - unfold Action.anext.
    destruct (nth_error _ _); [|destruct (Action.done self)]; exact Hinv.
Qed.

Lemma run_resolved_as_classified (ops : list op) : forall self : Action.t,
  resolved_as_classified self -> resolved_as_classified (fst (run self ops)).
Proof.
  induction ops as [|o ops IH]; intros self H; [exact H|].
  cbn [run]. pose proof (step_resolved_as_classified self o H) as H1.
  destruct (step self o) as [self1 out1]. cbn [fst] in H1.
  specialize (IH self1 H1). destruct (run self1 ops). exact IH.
Qed.

(** X9.  How a request is resolved agrees with how [multi] reads,
    whatever is fed to it and read from it afterwards: a future that
    holds a single message holds the first response of the buffer, and
    [self.multi] reads as a false value; a future that holds the list
    holds at least two responses, and [self.multi] reads as a true
    value. *)
Theorem resolved_as_classified_kept (self : Action.t) (ops : list op) :
  Action.future self = None ->
  resolved_as_classified (fst (run self ops)).
Proof.
  intros Hp. apply run_resolved_as_classified.
  unfold resolved_as_classified. now rewrite Hp.
Qed.

Lemma resolved_as_classified_kept_witness :
  resolved_as_classified
    (fst (run (request [("Action", PStr "Status")] None)
            [Feed (event "Status" "Start"); Next;
             Feed (event "StatusComplete" ""); Feed (event "Late" "")])).
Proof.
  apply resolved_as_classified_kept. reflexivity.
Defined.

(** ** The [async] field *)

(** X10.  The last signal of [multi] reads the [async] field of the
    request without testing for it.  When no override is given, the
    first response shows no earlier signal and its message ends with
    "successfully queued": a request without an [async] field makes
    [multi] raise [KeyError], and [add_message] raises it after
    buffering the message, with the future untouched; a request with the
    field is [multi] unless the value is the string "false". *)
Theorem queued_signal_reads_async (self : Action.t) (message : Message)
    (msg : string) :
  Action.responses self = [] ->
  Action.as_list self = None ->
  msg_message message = PStr msg ->
  response_signal message msg = false ->
  endswith (lower msg) "successfully queued" = true ->
  (CaseInsensitiveDict.contains (Action.fields self) "async" = false ->
   Action.multi (Action.append self message) = Raise KeyError
   /\ Action.add_message self message = (Action.append self message, Raise KeyError))
  /\ (forall v,
        CaseInsensitiveDict.getitem (Action.fields self) "async" = Ok v ->
        Action.multi (Action.append self message)
        = Ok (negb (pyval_eqb v (PStr "false")))).
Proof.
  intros Hnil Ho Hmsg Hs Hq.
  assert (Hr : Action.responses (Action.append self message) = message :: [])
    by (cbn; now rewrite Hnil).
  pose proof (multi_unfold (Action.append self message) message [] msg Hr Hmsg) as Hm.
  cbn [Action.append Action.as_list Action.fields] in Hm.
  rewrite Ho, Hs, Hq in Hm.
  split.
  - intros Ha.
    assert (E : Action.multi (Action.append self message) = Raise KeyError).
    { rewrite Hm. unfold CaseInsensitiveDict.contains in Ha.
      unfold CaseInsensitiveDict.getitem.
      destruct (CaseInsensitiveDict.find _ _) as [[k v]|];
        [discriminate|reflexivity]. }
    split; [exact E|]. unfold Action.add_message.
    now rewrite (read_multi_KeyError _ E).
  - intros v Hv. now rewrite Hm, Hv.
Qed.

Lemma queued_signal_reads_async_witness :
  Action.multi
    (Action.append
       (request [("Action", PStr "Originate"); ("Async", PStr "true")] None)
       (reply "Success" "Originate successfully queued"))
  = Ok true.
Proof.
  exact (proj2 (queued_signal_reads_async
    (request [("Action", PStr "Originate"); ("Async", PStr "true")] None)
    (reply "Success" "Originate successfully queued")
    "Originate successfully queued"
    eq_refl eq_refl eq_refl eq_refl eq_refl) (PStr "true") eq_refl).
Defined.

(** ** Construction keeps what the caller passed *)

Lemma find_lower_eq (d : CaseInsensitiveDict.t) (key key' : string) :
  lower key = lower key' ->
  CaseInsensitiveDict.contains d key = CaseInsensitiveDict.contains d key'
  /\ CaseInsensitiveDict.getitem d key = CaseInsensitiveDict.getitem d key'.
Proof.
  unfold CaseInsensitiveDict.contains, CaseInsensitiveDict.getitem.
  now intros ->.
Qed.

(** Assigning a key the mapping does not hold leaves every key it holds,
    and every key spelled otherwise, as it reads. *)
Lemma getitem_setitem_absent (d : CaseInsensitiveDict.t) (new key : string)
    (v : pyval) :
  CaseInsensitiveDict.contains d new = false ->
  CaseInsensitiveDict.contains d key = true \/ lower key <> lower new ->
  CaseInsensitiveDict.getitem (CaseInsensitiveDict.setitem d new v) key
  = CaseInsensitiveDict.getitem d key
  /\ (CaseInsensitiveDict.contains d key = true ->
      CaseInsensitiveDict.contains (CaseInsensitiveDict.setitem d new v) key = true).
Proof.
  intros Hnew Hkey.
  assert (Hne : lower key <> lower new).
  { destruct Hkey as [Hk|Hk]; [|exact Hk]. intros E.
    destruct (find_lower_eq d key new E) as [Hc _]. congruence. }
  unfold CaseInsensitiveDict.getitem, CaseInsensitiveDict.contains,
    CaseInsensitiveDict.setitem.
  now rewrite find_replace_other.
Qed.

(** One step of construction: assign [new] unless the mapping holds
    [probe], the same key in lower case. *)
Lemma ensure_key (d : CaseInsensitiveDict.t) (probe new key : string) (v : pyval) :
  lower probe = lower new ->
  let d' := if negb (CaseInsensitiveDict.contains d probe)
            then CaseInsensitiveDict.setitem d new v else d in
  CaseInsensitiveDict.contains d' new = true
  /\ (forall k, CaseInsensitiveDict.contains d k = true ->
                CaseInsensitiveDict.contains d' k = true)
  /\ (CaseInsensitiveDict.contains d key = true \/ lower key <> lower new ->
      CaseInsensitiveDict.getitem d' key = CaseInsensitiveDict.getitem d key).
Proof.
  intros Hl. cbv zeta.
  destruct (find_lower_eq d probe new Hl) as [Hc _]. rewrite Hc.
  destruct (CaseInsensitiveDict.contains d new) eqn:E; cbn [negb].
  - auto.
  - split; [now apply contains_setitem|]. split.
    + intros k Hk. apply getitem_setitem_absent; auto.
    + intros Hk. now apply getitem_setitem_absent.
Qed.

Lemma init_fields (g : IdGenerator.t) (data : list (string * pyval))
    (override : option bool) :
  Action.fields (fst (Action.init g data override))
  = if negb (CaseInsensitiveDict.contains (CaseInsensitiveDict.init data) "actionid")
    then CaseInsensitiveDict.setitem (CaseInsensitiveDict.init data) "ActionID"
           (PStr (IdGenerator.current g))
    else CaseInsensitiveDict.init data.
Proof.
  rewrite init_unfold. now destruct (CaseInsensitiveDict.contains _ _).
Qed.

Lemma command_fields (ga gc : IdGenerator.t) (data : list (string * pyval))
    (override : option bool) :
  Action.fields (fst (fst (Command.init ga gc data override)))
  = let a := Action.fields (fst (Action.init ga data override)) in
    let b := if negb (CaseInsensitiveDict.contains a "action")
             then CaseInsensitiveDict.setitem a "Action" (PStr "Command")
             else a in
    if negb (CaseInsensitiveDict.contains b "commandid")
    then CaseInsensitiveDict.setitem b "CommandID" (PStr (IdGenerator.current gc))
    else b.
Proof.
  unfold Command.init.
  destruct (Action.init ga data override) as [self ga']. cbn [fst].
  destruct (negb (CaseInsensitiveDict.contains (Action.fields self) "action"));
    cbn [Command.set_fields Action.fields];
    match goal with
    | |- context [if negb (CaseInsensitiveDict.contains ?d "commandid") then _ else _] =>
        destruct (negb (CaseInsensitiveDict.contains d "commandid"))
    end; reflexivity.
Qed.

(** X11.  Construction only adds: a [Command] always ends up with the
    fields [ActionID], [Action] and [CommandID], and an [Action] with
    [ActionID]; every field the caller passed, these three included,
    reads after construction as the caller set it, and every other key
    reads as in the caller's mapping. *)
Theorem init_keeps_caller_fields (ga gc : IdGenerator.t)
    (data : list (string * pyval)) (override : option bool) (key : string) :
  let d := CaseInsensitiveDict.init data in
  let a := Action.fields (fst (Action.init ga data override)) in
  let c := Action.fields (fst (fst (Command.init ga gc data override))) in
  CaseInsensitiveDict.contains a "ActionID" = true
  /\ CaseInsensitiveDict.contains c "ActionID" = true
  /\ CaseInsensitiveDict.contains c "Action" = true
  /\ CaseInsensitiveDict.contains c "CommandID" = true
  /\ (CaseInsensitiveDict.contains d key = true \/ lower key <> "actionid" ->
      CaseInsensitiveDict.getitem a key = CaseInsensitiveDict.getitem d key)
  /\ (CaseInsensitiveDict.contains d key = true
      \/ (lower key <> "actionid" /\ lower key <> "action"
          /\ lower key <> "commandid") ->
      CaseInsensitiveDict.getitem c key = CaseInsensitiveDict.getitem d key).
Proof.
  cbv zeta. rewrite command_fields. cbv zeta. rewrite init_fields.
  set (d := CaseInsensitiveDict.init data).
  pose proof (ensure_key d "actionid" "ActionID" key
                (PStr (IdGenerator.current ga)) eq_refl) as Ha.
  cbv zeta in Ha. set (a := if negb _ then _ else d) in *.
  pose proof (ensure_key a "action" "Action" key (PStr "Command") eq_refl) as Hb.
  cbv zeta in Hb. set (b := if negb _ then _ else a) in *.
  pose proof (ensure_key b "commandid" "CommandID" key
                (PStr (IdGenerator.current gc)) eq_refl) as Hc.
  cbv zeta in Hc. set (c := if negb _ then _ else b) in *.
  destruct Ha as (Ha1 & Ha2 & Ha3), Hb as (Hb1 & Hb2 & Hb3),
    Hc as (Hc1 & Hc2 & Hc3).
  change (lower "ActionID") with "actionid" in Ha3.
  change (lower "Action") with "action" in Hb3.
  change (lower "CommandID") with "commandid" in Hc3.
  split; [exact Ha1|]. split; [apply Hc2, Hb2, Ha1|].
  split; [apply Hc2, Hb1|]. split; [exact Hc1|]. split; [exact Ha3|].
  intros Hk.
  rewrite Hc3, Hb3, Ha3; try tauto.
  - destruct Hk as [Hk|Hk]; [left; apply Ha2, Hk|tauto].
  - destruct Hk as [Hk|Hk]; [left; apply Hb2, Ha2, Hk|tauto].
Qed.

Lemma init_keeps_caller_fields_witness :
  CaseInsensitiveDict.getitem
    (Action.fields
       (fst (fst (Command.init (myuuid "action") (myuuid "command")
                    [("Command", PStr "core show version"); ("actionid", PStr "42")]
                    None))))
    "ActionID"
  = Ok (PStr "42").
Proof.
  refine (proj2 (proj2 (proj2 (proj2 (proj2
    (init_keeps_caller_fields (myuuid "action") (myuuid "command")
       [("Command", PStr "core show version"); ("actionid", PStr "42")]
       None "ActionID"))))) _).
  left. reflexivity.
Defined.

(** ** A field with an empty list *)

Lemma replace_absent (k : string) (e : string * pyval) (d : CaseInsensitiveDict.t) :
  CaseInsensitiveDict.find k d = None ->
  CaseInsensitiveDict.replace k e d = (d ++ [(k, e)])%list.
Proof.
  induction d as [|[k' e'] d IH]; simpl; [reflexivity|].
  destruct (String.eqb k k'); [discriminate|].
  intros H. now rewrite IH.
Qed.

Lemma items_setitem_absent (d : CaseInsensitiveDict.t) (key : string) (v : pyval) :
  CaseInsensitiveDict.contains d key = false ->
  CaseInsensitiveDict.items (CaseInsensitiveDict.setitem d key v)
  = (CaseInsensitiveDict.items d ++ [(key, v)])%list.
Proof.
  unfold CaseInsensitiveDict.contains, CaseInsensitiveDict.setitem,
    CaseInsensitiveDict.items.
  destruct (CaseInsensitiveDict.find (lower key) d) eqn:E; [discriminate|].
  intros _. rewrite replace_absent by exact E. now rewrite map_app.
Qed.

Lemma sorted_snoc (l : list (string * pyval)) (x : string * pyval) :
  NoDup (map fst (l ++ [x])) ->
  Action.sorted (l ++ [x]) = Action.insert x (Action.sorted l).
Proof.
  intros Hnd. apply StronglySorted_unique.
  - eapply Permutation_NoDup; [|exact Hnd].
    apply Permutation_map, Permutation_sym, sorted_Permutation.
  - apply sorted_StronglySorted.
  - apply insert_StronglySorted, sorted_StronglySorted.
  - rewrite sorted_Permutation, insert_Permutation, sorted_Permutation.
    apply Permutation_sym, Permutation_cons_append.
Qed.

Lemma lines_insert_nothing (x : string * pyval) (l : list (string * pyval)) :
  Action.lines x = [] ->
  flat_map Action.lines (Action.insert x l) = flat_map Action.lines l.
Proof.
  intros Hx. induction l as [|y l IH]; simpl.
  - now rewrite Hx.
  - destruct (Action.item_leb x y); simpl; [now rewrite Hx|now rewrite IH].
Qed.

(** X12.  A field whose value is an empty list leaves no trace in the
    wire text: adding it to a request that does not hold the key gives
    the same text as before. *)
Theorem empty_list_field_emits_nothing (EOL : string) (self : Action.t)
    (key : string) :
  CaseInsensitiveDict.wf (Action.fields self) ->
  CaseInsensitiveDict.contains (Action.fields self) key = false ->
  Action.str EOL
    (Action.mk (CaseInsensitiveDict.setitem (Action.fields self) key (PList []))
       (Action.as_list self) (Action.future self) (Action.responses self)
       (Action.responses_index self))
  = Action.str EOL self.
Proof.
  intros Hwf Hkey. unfold Action.str. cbn [Action.fields].
  rewrite items_setitem_absent by exact Hkey.
  rewrite sorted_snoc.
  - now rewrite lines_insert_nothing.
  - rewrite <- items_setitem_absent by exact Hkey.
    apply wf_items_NoDup. now apply wf_setitem.
Qed.

Lemma empty_list_field_emits_nothing_witness :
  Action.str CRLF
    (Action.mk
       (CaseInsensitiveDict.setitem
          (Action.fields (request [("Action", PStr "SIPnotify")] None))
          "Variable" (PList []))
       None None [] 0)
  = Action.str CRLF (request [("Action", PStr "SIPnotify")] None).
Proof.
  apply (empty_list_field_emits_nothing CRLF
           (request [("Action", PStr "SIPnotify")] None) "Variable").
  - apply wf_action_init.
  - reflexivity.
Defined.

(** ** The stream from construction to the end *)

(** X13.  No message is lost and none is handed out twice: on a
    request that starts with an empty buffer, whatever the interleaving
    of feeds and passes of [__anext__], what the stream has handed out,
    followed by what it hands out when the consumer then asks once for
    every response still ahead of the cursor, is the sequence of the
    messages fed, in the order they were fed. *)
Theorem stream_hands_out_every_message (self : Action.t) (ops : list op) :
  Action.responses self = [] ->
  Action.responses_index self = 0 ->
  let final := fst (run self ops) in
  let left := List.length (Action.responses final) - Action.responses_index final in
  (snd (run self ops) ++ snd (run final (repeat Next left)))%list = fed ops.
Proof.
  intros Hnil Hzero. cbv zeta.
  pose proof (run_frame ops self) as Hf. cbv zeta in Hf.
  destruct Hf as (_ & Hr & _ & _).
  assert (Hle : Action.responses_index self <= List.length (Action.responses self))
    by (rewrite Hzero; lia).
  pose proof (run_stream ops self Hle) as Hs.
  destruct (run self ops) as [final out]. cbn [fst snd] in *.
  destruct Hs as [Hle' Hout].
  rewrite Hnil in Hr, Hout. rewrite Hzero in Hout. cbn in Hr, Hout.
  rewrite run_passes by lia. cbn [snd].
  rewrite firstn_all2 by (rewrite length_skipn; lia).
  rewrite <- Hout, <- Hr. apply firstn_skipn.
Qed.

Lemma stream_hands_out_every_message_witness :
  (snd (run (request [("Action", PStr "Status")] None)
          [Feed (event "Status" "Start"); Next; Feed (event "Status" "");
           Feed (event "StatusComplete" "")])
   ++ snd (run (fst (run (request [("Action", PStr "Status")] None)
                       [Feed (event "Status" "Start"); Next;
                        Feed (event "Status" "");
                        Feed (event "StatusComplete" "")]))
             (repeat Next 2)))%list
  = [event "Status" "Start"; event "Status" ""; event "StatusComplete" ""].
Proof.
  exact (stream_hands_out_every_message
    (request [("Action", PStr "Status")] None)
    [Feed (event "Status" "Start"); Next; Feed (event "Status" "");
     Feed (event "StatusComplete" "")] eq_refl eq_refl).
Defined.

(** ** An event name that is not a string *)

(** X14.  [completed] calls [endswith] on the event name of the last
    response before it looks at anything else.  When that attribute is
    not a string the getter raises [AttributeError], which Python turns
    into a call of [__getattr__]: [self.completed] reads as the field
    named [completed], or as the empty string.  Unless the request has
    such a field with a true value, [add_message] then resolves nothing,
    even if the response carries a marker of completion, and returns
    [None] whenever [multi] can be read. *)
Theorem completed_needs_event_name (self : Action.t) (message : Message) :
  (forall name, msg_event message <> PStr name) ->
  truthy (CaseInsensitiveDict.getattr (Action.fields self) "completed") = false ->
  Action.completed (Action.append self message) = Raise AttributeError
  /\ Action.read_completed (Action.append self message)
     = Ok (Field (CaseInsensitiveDict.getattr (Action.fields self) "completed"))
  /\ fst (Action.add_message self message) = Action.append self message
  /\ (forall m, Action.read_multi (Action.append self message) = Ok m ->
      Action.add_message self message = (Action.append self message, Ok None)).
Proof.
  intros Hname Hfalse.
  assert (Hc : Action.completed (Action.append self message) = Raise AttributeError).
  { unfold Action.completed. cbn [Action.append Action.responses].
    rewrite index_last_app. cbn [bind].
    destruct (msg_event message) as [|name|l]; try reflexivity.
    now destruct (Hname name). }
  assert (Hr : Action.read_completed (Action.append self message)
               = Ok (Field (CaseInsensitiveDict.getattr (Action.fields self)
                              "completed")))
    by (unfold Action.read_completed; now rewrite Hc).
  split; [exact Hc|]. split; [exact Hr|].
  unfold Action.add_message. rewrite Hr. cbn [attr_truthy]. rewrite Hfalse.
  cbn [andb].
  destruct (Action.read_multi (Action.append self message)) as [m|e].
  - split; [reflexivity|]. intros m' _. reflexivity.
  - split; [reflexivity|]. intros m' H. discriminate.
Qed.

Lemma completed_needs_event_name_witness :
  Action.add_message (request [("Action", PStr "Ping")] None)
    (mkMessage
       (CaseInsensitiveDict.init
          [("Response", PStr "Success"); ("Event", PList ["A"; "B"])])
       (PList ["A"; "B"]) (PStr "") (PStr "Success") (PStr ""))
  = (Action.append (request [("Action", PStr "Ping")] None)
       (mkMessage
          (CaseInsensitiveDict.init
             [("Response", PStr "Success"); ("Event", PList ["A"; "B"])])
          (PList ["A"; "B"]) (PStr "") (PStr "Success") (PStr "")),
     Ok None).
Proof.
  refine (proj2 (proj2 (proj2 (completed_needs_event_name
    (request [("Action", PStr "Ping")] None)
    (mkMessage
       (CaseInsensitiveDict.init
          [("Response", PStr "Success"); ("Event", PList ["A"; "B"])])
       (PList ["A"; "B"]) (PStr "") (PStr "Success") (PStr "")) _ eq_refl)))
    (Bool false) eq_refl).
  discriminate.
Defined.
